(** * BillTheAccountant: a shallow embedding of the debt ledger

    The development embeds [contracts/BillTheAccountant.sol] (the
    on-chain ledger: netting, propose / confirm / reject, settlement,
    registration) and the [balance] command of the Discord bot, which
    rebuilds the pending balance of a pair from the contract's event log.

    Solidity [uint256] values and [address]es are binary naturals ([N]);
    arithmetic is the checked arithmetic of Solidity 0.8 (a result above
    [2^256 - 1] or below [0] aborts the call).  A [mapping] is a total
    function with the type's zero value as default, updated with stdpp's
    [<[ k := v ]>] on functions.  A call either returns the new contract
    state or reverts; a reverted call leaves the state it started from.
    The external [transferFrom] of the token is described by what the
    token does during the call: it may call back into the ledger, and in
    the end it returns its [bool] or reverts. *)

From Stdlib Require Import NArith ZArith List Ascii String Bool Lia.
From stdpp Require Import base decidable numbers strings functions.
Import ListNotations.

Local Open Scope string_scope.
Local Open Scope N_scope.

(** ** Machine integers and reverts *)

Definition address := N.
Definition uint256 := N.

Definition MAX_UINT256 : N := 2 ^ 256 - 1.

(** The ways a call of the contract can abort: one constructor per
    [require] message of the source, the arithmetic panic of checked
    [uint256] operations, and a revert that bubbles up from the external
    [transferFrom] call. *)
Inductive Revert : Type :=
| SameDebtorCreditor      (* "Debtor and creditor cannot be the same" *)
| AmountNotPositive       (* "Debt amount must be positive" *)
| PendingDoesNotExist     (* "Pending debt does not exist" *)
| OnlyDebtorConfirms      (* "Only the debtor can confirm the debt" *)
| OnlyPartiesReject       (* "Only debtor or creditor can reject" *)
| NoDebtToSettle          (* "No debt to settle" *)
| EmptyDiscordId          (* "Discord ID cannot be empty" *)
| ZeroWallet              (* "Wallet address cannot be zero" *)
| DiscordIdRegistered     (* "Discord ID already registered" *)
| WalletRegistered        (* "Wallet already registered" *)
| ArithmeticPanic         (* Panic(0x11): checked arithmetic overflowed *)
| ExternalCallReverted.   (* the call of [transferFrom] reverted *)

(** The error taxonomy of the specification, with two kinds it does not
    name: a failed registration and an arithmetic overflow. *)
Inductive ErrorKind : Type :=
| InvalidOperands | NotFound | Unauthorized | NothingToSettle
| TransferFailed | InvalidRegistration | Overflow.

Definition taxonomy (r : Revert) : ErrorKind :=
  match r with
  | SameDebtorCreditor | AmountNotPositive => InvalidOperands
  | PendingDoesNotExist => NotFound
  | OnlyDebtorConfirms | OnlyPartiesReject => Unauthorized
  | NoDebtToSettle => NothingToSettle
  | EmptyDiscordId | ZeroWallet | DiscordIdRegistered | WalletRegistered =>
      InvalidRegistration
  | ArithmeticPanic => Overflow
  | ExternalCallReverted => TransferFailed
  end.

Inductive Result (A : Type) : Type :=
| Ok (a : A)
| Err (r : Revert).
Arguments Ok {A} a.
Arguments Err {A} r.

Definition bind {A B : Type} (m : Result A) (k : A -> Result B) : Result B :=
  match m with
  | Ok a => k a
  | Err r => Err r
  end.

Definition require (b : bool) (r : Revert) : Result unit :=
  if b then Ok tt else Err r.

Declare Scope sol_scope.
Delimit Scope sol_scope with sol.
Notation "'let*' x ':=' m 'in' k" := (bind m (fun x => k))
  (at level 10, x name, m at level 100, k at level 200) : sol_scope.
Notation "'check' b 'otherwise' r ;; k" := (bind (require b r) (fun _ => k))
  (at level 10, b at level 100, r at level 0, k at level 200) : sol_scope.
Local Open Scope sol_scope.

(** Checked [uint256] arithmetic of Solidity 0.8. *)
Definition checked_add (a b : uint256) : Result uint256 :=
  if a + b <=? MAX_UINT256 then Ok (a + b) else Err ArithmeticPanic.

Definition checked_sub (a b : uint256) : Result uint256 :=
  if b <=? a then Ok (a - b) else Err ArithmeticPanic.

(** ** Data model *)

Inductive Event : Type :=
| DebtAdded (actionId : uint256) (debtor creditor token : address)
            (amount : uint256) (memo : string) (timestamp : uint256)
| DebtSettled (debtor creditor token : address) (amount : uint256)
| DebtProposed (pendingDebtId : uint256) (creditor debtor token : address)
               (amount : uint256) (memo : string)
| DebtConfirmed (pendingDebtId : uint256)
| DebtRejected (pendingDebtId : uint256)
| UserRegistered (discordId : string) (walletAddress : address).

Module PendingDebt.
Record t : Type := Build {
  creditor : address;
  debtor : address;
  token : address;
  amount : uint256;
  memo : string;
  exists_ : bool
}.
(** The value [delete] leaves behind, and the default of the mapping. *)
Definition zero : t := Build 0 0 0 0 "" false.
End PendingDebt.

(** The storage of the contract, with the event log the contract has
    emitted so far.  [events] holds the log newest first. *)
Record State : Type := mkState {
  debts : address -> address -> address -> uint256;
  debtActionCounter : uint256;
  discordToWallet : string -> address;
  walletToDiscord : address -> string;
  pendingDebts : uint256 -> PendingDebt.t;
  pendingDebtCounter : uint256;
  events : list Event
}.

Definition init : State :=
  mkState (fun _ _ _ => 0) 0 (fun _ => 0) (fun _ => "")
          (fun _ => PendingDebt.zero) 0 [].

(** The log in the order the events were emitted. *)
Definition event_log (st : State) : list Event := rev (events st).

Definition emit (e : Event) (st : State) : State :=
  mkState (debts st) (debtActionCounter st) (discordToWallet st)
          (walletToDiscord st) (pendingDebts st) (pendingDebtCounter st)
          (e :: events st).

(** [debts[token][debtor][creditor] = v] *)
Definition set_debt (token debtor creditor : address) (v : uint256)
    (st : State) : State :=
  mkState (<[token := <[debtor := <[creditor := v]> (debts st token debtor)]>
                        (debts st token)]> (debts st))
          (debtActionCounter st) (discordToWallet st) (walletToDiscord st)
          (pendingDebts st) (pendingDebtCounter st) (events st).

Definition set_debtActionCounter (n : uint256) (st : State) : State :=
  mkState (debts st) n (discordToWallet st) (walletToDiscord st)
          (pendingDebts st) (pendingDebtCounter st) (events st).

Definition set_pendingDebtCounter (n : uint256) (st : State) : State :=
  mkState (debts st) (debtActionCounter st) (discordToWallet st)
          (walletToDiscord st) (pendingDebts st) n (events st).

(** [pendingDebts[id] = p] *)
Definition set_pendingDebt (id : uint256) (p : PendingDebt.t) (st : State)
    : State :=
  mkState (debts st) (debtActionCounter st) (discordToWallet st)
          (walletToDiscord st) (<[id := p]> (pendingDebts st))
          (pendingDebtCounter st) (events st).

(** [discordToWallet[discordId] = w; walletToDiscord[w] = discordId] *)
Definition set_registration (discordId : string) (w : address) (st : State)
    : State :=
  mkState (debts st) (debtActionCounter st)
          (<[discordId := w]> (discordToWallet st))
          (<[w := discordId]> (walletToDiscord st))
          (pendingDebts st) (pendingDebtCounter st) (events st).

(** ** The contract *)

(** [addDebt] (internal): nets the new debt against the debt in the
    opposite direction and records the action. *)
Definition addDebt (token debtor creditor : address) (amount : uint256)
    (memo : string) (timestamp : uint256) (st : State) : Result State :=
  check negb (debtor =? creditor) otherwise SameDebtorCreditor ;;
  check 0 <? amount otherwise AmountNotPositive ;;
  let existingOppositeDebt := debts st token creditor debtor in
  let* st1 :=
    (if amount <=? existingOppositeDebt then
       let* v := checked_sub existingOppositeDebt amount in
       Ok (set_debt token creditor debtor v st)
     else
       let st0 := if 0 <? existingOppositeDebt
                  then set_debt token creditor debtor 0 st else st in
       let* d := checked_sub amount existingOppositeDebt in
       let* v := checked_add (debts st0 token debtor creditor) d in
       Ok (set_debt token debtor creditor v st0)) in
  let* n := checked_add (debtActionCounter st1) 1 in
  let st2 := set_debtActionCounter n st1 in
  Ok (emit (DebtAdded (debtActionCounter st2) debtor creditor token amount
                      memo timestamp) st2).

Definition proposeDebt (sender token debtor : address) (amount : uint256)
    (memo : string) (st : State) : Result State :=
  check negb (debtor =? sender) otherwise SameDebtorCreditor ;;
  let* n := checked_add (pendingDebtCounter st) 1 in
  let st1 := set_pendingDebtCounter n st in
  let st2 := set_pendingDebt (pendingDebtCounter st1)
               (PendingDebt.Build sender debtor token amount memo true) st1 in
  Ok (emit (DebtProposed (pendingDebtCounter st2) sender debtor token amount
                         memo) st2).

Definition confirmDebt (sender : address) (pendingDebtId : uint256)
    (timestamp : uint256) (st : State) : Result State :=
  let pending := pendingDebts st pendingDebtId in
  check PendingDebt.exists_ pending otherwise PendingDoesNotExist ;;
  check sender =? PendingDebt.debtor pending otherwise OnlyDebtorConfirms ;;
  let* st1 := addDebt (PendingDebt.token pending) (PendingDebt.debtor pending)
                 (PendingDebt.creditor pending) (PendingDebt.amount pending)
                 (PendingDebt.memo pending) timestamp st in
  let st2 := set_pendingDebt pendingDebtId PendingDebt.zero st1 in
  Ok (emit (DebtConfirmed pendingDebtId) st2).

Definition rejectDebt (sender : address) (pendingDebtId : uint256)
    (st : State) : Result State :=
  let pending := pendingDebts st pendingDebtId in
  check PendingDebt.exists_ pending otherwise PendingDoesNotExist ;;
  check (sender =? PendingDebt.debtor pending)
        || (sender =? PendingDebt.creditor pending) otherwise OnlyPartiesReject ;;
  let st1 := set_pendingDebt pendingDebtId PendingDebt.zero st in
  Ok (emit (DebtRejected pendingDebtId) st1).

Definition registerUser (discordId : string) (walletAddress : address)
    (st : State) : Result State :=
  check 0 <? N.of_nat (String.length discordId) otherwise EmptyDiscordId ;;
  check negb (walletAddress =? 0) otherwise ZeroWallet ;;
  check discordToWallet st discordId =? 0 otherwise DiscordIdRegistered ;;
  check N.of_nat (String.length (walletToDiscord st walletAddress)) =? 0
    otherwise WalletRegistered ;;
  let st1 := set_registration discordId walletAddress st in
  Ok (emit (UserRegistered discordId walletAddress) st1).

(** The outcome of the external call [IERC20(token).transferFrom(from,
    to, value)] as [settleDebt] sees it: the call reverts, or it returns
    the token's [bool] (with the contract state as the callee left it: a
    callee may call back into the ledger before it returns). *)
Definition ExternalCall : Type :=
  address -> address -> address -> uint256 -> State -> Result (bool * State).

(** [settleDebt]: the return value of [transferFrom] is not looked at. *)
Definition settleDebt (transferFrom : ExternalCall)
    (sender token creditor : address) (st : State) : Result State :=
  let amountOwed := debts st token sender creditor in
  check 0 <? amountOwed otherwise NoDebtToSettle ;;
  let st1 := set_debt token sender creditor 0 st in
  let* returned := transferFrom token sender creditor amountOwed st1 in
  let st2 := snd returned in
  Ok (emit (DebtSettled sender creditor token amountOwed) st2).

(** ** Calls, reentrancy and transactions *)

(** The public functions of the contract, and what the token does while
    [transferFrom] runs: it returns its [bool], it reverts, or it first
    calls back into the ledger (the callee survives a failing inner call,
    whose effects are then undone). *)
Inductive Call : Type :=
| CallProposeDebt (sender token debtor : address) (amount : uint256)
                  (memo : string)
| CallConfirmDebt (sender : address) (pendingDebtId : uint256)
| CallRejectDebt (sender : address) (pendingDebtId : uint256)
| CallSettleDebt (sender token creditor : address) (transfer : Transfer)
| CallRegisterUser (discordId : string) (walletAddress : address)
with Transfer : Type :=
| Returns (success : bool)
| Reverts
| Reenters (inner : Call) (rest : Transfer).

Definition or_unchanged (st : State) (r : Result State) : State :=
  match r with
  | Ok st' => st'
  | Err _ => st
  end.

Fixpoint call (timestamp : uint256) (c : Call) (st : State) {struct c}
    : Result State :=
  match c with
  | CallProposeDebt sender token debtor amount memo =>
      proposeDebt sender token debtor amount memo st
  | CallConfirmDebt sender pendingDebtId =>
      confirmDebt sender pendingDebtId timestamp st
  | CallRejectDebt sender pendingDebtId =>
      rejectDebt sender pendingDebtId st
  | CallSettleDebt sender token creditor transfer =>
      settleDebt (fun _ _ _ _ => transferFrom timestamp transfer)
                 sender token creditor st
  | CallRegisterUser discordId walletAddress =>
      registerUser discordId walletAddress st
  end
with transferFrom (timestamp : uint256) (t : Transfer) (st : State)
    {struct t} : Result (bool * State) :=
  match t with
  | Returns success => Ok (success, st)
  | Reverts => Err ExternalCallReverted
  | Reenters inner rest =>
      transferFrom timestamp rest (or_unchanged st (call timestamp inner st))
  end.

(** A transaction is a call in a block with a timestamp; a transaction
    that reverts changes nothing. *)
Record Tx : Type := mkTx { tx_timestamp : uint256; tx_call : Call }.

Definition transact (st : State) (tx : Tx) : State :=
  or_unchanged st (call (tx_timestamp tx) (tx_call tx) st).

Definition run (txs : list Tx) (st : State) : State :=
  fold_left transact txs st.

Definition fails_with (r : Result State) (k : ErrorKind) : Prop :=
  match r with
  | Ok _ => False
  | Err e => taxonomy e = k
  end.

(** ** The bot's [balance] command *)

(** The handler asks the node for the contract's events and compares the
    addresses in them with the two wallets.  Addresses are compared here
    as the numbers they are (the source compares their hexadecimal
    spelling, lower-cased for the filter); a proposal id is taken as it
    is ([Number(id)] in the source is exact for the ids a counter that
    starts at 1 reaches), and the queries to the node are taken to
    succeed. *)

Definition isDebtProposed (e : Event) : bool :=
  match e with DebtProposed _ _ _ _ _ _ => true | _ => false end.

Definition isDebtConfirmed (id : uint256) (e : Event) : bool :=
  match e with DebtConfirmed i => i =? id | _ => false end.

Definition isDebtRejected (id : uint256) (e : Event) : bool :=
  match e with DebtRejected i => i =? id | _ => false end.

(** [isDebtResolved]: is there a [DebtConfirmed] or a [DebtRejected]
    event for the id in the log the node returns. *)
Definition isDebtResolved (log : list Event) (pendingDebtId : uint256)
    : bool :=
  let confirmedEvents := List.filter (isDebtConfirmed pendingDebtId) log in
  let rejectedEvents := List.filter (isDebtRejected pendingDebtId) log in
  (0 <? List.length confirmedEvents)%nat
  || (0 <? List.length rejectedEvents)%nat.

(** The four figures the handler computes. *)
Record Balance : Type := mkBalance {
  debtOwed : uint256;      (* debts(token, user1, user2) *)
  debtOwing : uint256;     (* debts(token, user2, user1) *)
  pendingOwed : N;         (* open proposals, debtor user1, creditor user2 *)
  pendingOwing : N         (* open proposals, debtor user2, creditor user1 *)
}.

Definition relevantEvent (token user1 user2 : address) (e : Event) : bool :=
  match e with
  | DebtProposed _ creditor debtor tok _ _ =>
      let userMatch := ((creditor =? user1) && (debtor =? user2))
                       || ((creditor =? user2) && (debtor =? user1)) in
      let tokenMatch := tok =? token in
      userMatch && tokenMatch
  | _ => false
  end.

Definition unresolvedEvent (log : list Event) (e : Event) : bool :=
  match e with
  | DebtProposed pendingDebtId _ _ _ _ _ =>
      negb (isDebtResolved log pendingDebtId)
  | _ => false
  end.

(** The loop that adds up the open proposals in either direction. *)
Definition addPending (user1 user2 : address) (acc : N * N) (e : Event)
    : N * N :=
  match e with
  | DebtProposed _ creditor debtor _ amount _ =>
      if (debtor =? user1) && (creditor =? user2)
      then (fst acc + amount, snd acc)
      else if (debtor =? user2) && (creditor =? user1)
      then (fst acc, snd acc + amount)
      else acc
  | _ => acc
  end.

(** The [balance] command for the wallets [user1] (the author of the
    message) and [user2] (the mentioned user), once both are resolved. *)
Definition balance (st : State) (token user1 user2 : address) : Balance :=
  let log := event_log st in
  let allDebtProposedEvents := List.filter isDebtProposed log in
  let relevantEvents :=
    List.filter (relevantEvent token user1 user2) allDebtProposedEvents in
  let pendingDebtEvents :=
    List.filter (unresolvedEvent log) relevantEvents in
  let pending := fold_left (addPending user1 user2) pendingDebtEvents (0, 0) in
  mkBalance (debts st token user1 user2) (debts st token user2 user1)
            (fst pending) (snd pending).

(** The lines of the reply that carry a figure, with the label each
    figure is printed under (the amounts are left as numbers). *)
Definition balanceMessage (b : Balance) : list (string * N) :=
  [("You owe them", debtOwing b);
   ("They owe you", debtOwed b);
   ("You owe them (pending)", pendingOwing b);
   ("They owe you (pending)", pendingOwed b)].

(** ** The specification's reconstruction of the pending balance *)

(** One step of the replay the specification describes: the replay walks
    the log in order and keeps the proposals that are open; a proposal
    opens with its [DebtProposed] event and closes with a [DebtConfirmed]
    or [DebtRejected] event that carries its id. *)
Definition proposalId (e : Event) : option uint256 :=
  match e with
  | DebtProposed id _ _ _ _ _ => Some id
  | _ => None
  end.

Definition hasId (id : uint256) (e : Event) : bool :=
  match proposalId e with
  | Some i => i =? id
  | None => false
  end.

Definition spec_replay_step (open : list Event) (e : Event) : list Event :=
  match e with
  | DebtProposed _ _ _ _ _ _ => open ++ [e]
  | DebtConfirmed id | DebtRejected id =>
      List.filter (fun p => negb (hasId id p)) open
  | _ => open
  end.

Definition spec_replay_open (log : list Event) : list Event :=
  fold_left spec_replay_step log [].

(** The amount an open proposal contributes to "[debtor] owes [creditor]"
    on [asset]. *)
Definition contribution (asset debtor creditor : address) (e : Event) : N :=
  match e with
  | DebtProposed _ c d t amount _ =>
      if (d =? debtor) && (c =? creditor) && (t =? asset) then amount else 0
  | _ => 0
  end.

Definition total (f : Event -> N) (l : list Event) : N :=
  fold_right (fun e acc => f e + acc) 0 l.

Definition spec_replay_pending (log : list Event) (asset debtor creditor : address)
    : N :=
  total (contribution asset debtor creditor) (spec_replay_open log).

(** The same figure read off the log event by event: a [DebtProposed]
    event counts when the log has no [DebtConfirmed] and no [DebtRejected]
    event for its id. *)
Definition open_contribution (log : list Event)
    (asset debtor creditor : address) (e : Event) : N :=
  if unresolvedEvent log e then contribution asset debtor creditor e else 0.

(** ** Sequences of nettings between one pair *)

Inductive Direction : Type := AowesB | BowesA.

Record Applied : Type := mkApplied {
  direction : Direction;
  applied_amount : uint256;
  applied_memo : string;
  applied_timestamp : uint256
}.

Definition applyDebt (asset A B : address) (x : Applied) (st : State)
    : Result State :=
  match direction x with
  | AowesB => addDebt asset A B (applied_amount x) (applied_memo x)
                      (applied_timestamp x) st
  | BowesA => addDebt asset B A (applied_amount x) (applied_memo x)
                      (applied_timestamp x) st
  end.

Fixpoint applyDebts (asset A B : address) (xs : list Applied) (st : State)
    : Result State :=
  match xs with
  | [] => Ok st
  | x :: rest =>
      let* st' := applyDebt asset A B x st in
      applyDebts asset A B rest st'
  end.

Definition signed (x : Applied) : Z :=
  match direction x with
  | AowesB => Z.of_N (applied_amount x)
  | BowesA => (- Z.of_N (applied_amount x))%Z
  end.

Definition signed_sum (xs : list Applied) : Z :=
  fold_right (fun x acc => (signed x + acc)%Z) 0%Z xs.

(** When a call of [addDebt] returns, and when checked arithmetic stops it. *)
Definition netting_fits (token d c : address) (amount : uint256) (st : State)
    : Prop :=
  (amount <= debts st token c d
   \/ debts st token d c + (amount - debts st token c d) <= MAX_UINT256)
  /\ debtActionCounter st + 1 <= MAX_UINT256.

(** At most one direction between the pair is non-zero. *)
Definition netted (asset A B : address) (st : State) : Prop :=
  debts st asset A B = 0 \/ debts st asset B A = 0.

(** What A owes B, counted negative when it is B who owes A. *)
Definition net (asset A B : address) (st : State) : Z :=
  (Z.of_N (debts st asset A B) - Z.of_N (debts st asset B A))%Z.

(** ** Invariants of the proposal store and of the registry *)

(** How many [DebtConfirmed] and [DebtRejected] events a log holds for
    one proposal id. *)
Definition resolutions (id : uint256) (log : list Event) : nat :=
  (List.length (List.filter (isDebtConfirmed id) log)
   + List.length (List.filter (isDebtRejected id) log))%nat.

(** In a log held newest first: no proposal is resolved before its
    [DebtProposed] event. *)
Fixpoint well_ordered (log : list Event) : Prop :=
  match log with
  | [] => True
  | e :: older =>
      match proposalId e with
      | Some id => resolutions id older = 0%nat
      | None => True
      end /\ well_ordered older
  end.

Definition isOpen (st : State) (id : uint256) : bool :=
  PendingDebt.exists_ (pendingDebts st id).

Record ProposalInv (st : State) : Prop := mkProposalInv {
  fresh_not_open :
    forall id, pendingDebtCounter st < id -> isOpen st id = false;
  fresh_not_resolved :
    forall id, pendingDebtCounter st < id ->
               resolutions id (events st) = 0%nat;
  open_not_resolved :
    forall id, isOpen st id = true -> resolutions id (events st) = 0%nat;
  resolved_once :
    forall id, (resolutions id (events st) <= 1)%nat;
  log_well_ordered : well_ordered (events st)
}.

Definition registered_id (st : State) (discordId : string) : Prop :=
  discordToWallet st discordId <> 0.

Definition registered_wallet (st : State) (w : address) : Prop :=
  walletToDiscord st w <> "".

(** The two mappings are inverse to each other on what is registered. *)
Record RegistryInv (st : State) : Prop := mkRegistryInv {
  id_to_wallet :
    forall discordId, registered_id st discordId ->
      discordId <> "" /\
      walletToDiscord st (discordToWallet st discordId) = discordId;
  wallet_to_id :
    forall w, registered_wallet st w ->
      w <> 0 /\ discordToWallet st (walletToDiscord st w) = w
}.

(** Registrations of [st] that [st'] still has, unchanged. *)
Definition keeps_registrations (st st' : State) : Prop :=
  (forall discordId, registered_id st discordId ->
     discordToWallet st' discordId = discordToWallet st discordId) /\
  (forall w, registered_wallet st w ->
     walletToDiscord st' w = walletToDiscord st w).

(** The log only grows. *)
Definition extends_log (st st' : State) : Prop :=
  exists newer, events st' = (newer ++ events st)%list.

(** ** Who moves a ledger entry *)

(** The netting invariant on the whole ledger: no two accounts owe each
    other at once, on any asset (and nobody owes themselves). *)
Definition NettingInv (st : State) : Prop :=
  forall asset A B, debts st asset A B = 0 \/ debts st asset B A = 0.

(** Does the call, or a call the token makes while it runs, confirm a
    proposal as [who]. *)
Fixpoint confirms_as (who : address) (c : Call) {struct c} : bool :=
  match c with
  | CallConfirmDebt sender _ => sender =? who
  | CallSettleDebt _ _ _ transfer => transfer_confirms_as who transfer
  | _ => false
  end
with transfer_confirms_as (who : address) (t : Transfer) {struct t} : bool :=
  match t with
  | Reenters inner rest =>
      confirms_as who inner || transfer_confirms_as who rest
  | _ => false
  end.

(** Does the call, or a call the token makes while it runs, settle what
    [debtor] owes [creditor] on [asset]. *)
Fixpoint settles (asset debtor creditor : address) (c : Call) {struct c}
    : bool :=
  match c with
  | CallSettleDebt sender token cr transfer =>
      ((sender =? debtor) && (token =? asset) && (cr =? creditor))
      || transfer_settles asset debtor creditor transfer
  | _ => false
  end
with transfer_settles (asset debtor creditor : address) (t : Transfer)
    {struct t} : bool :=
  match t with
  | Reenters inner rest =>
      settles asset debtor creditor inner
      || transfer_settles asset debtor creditor rest
  | _ => false
  end.

(** ** Numbering of the events *)

Definition actionId_of (e : Event) : option uint256 :=
  match e with
  | DebtAdded actionId _ _ _ _ _ _ => Some actionId
  | _ => None
  end.

(** The numbers that the events of a log carry, in the order of the log. *)
Definition numbers (number : Event -> option uint256) (log : list Event)
    : list uint256 :=
  flat_map (fun e => match number e with Some n => [n] | None => [] end) log.

(** [n, n - 1, ..., 1] *)
Fixpoint counts_down_from (n : uint256) (l : list uint256) : Prop :=
  match l with
  | [] => n = 0
  | i :: rest => i = n /\ 0 < n /\ counts_down_from (n - 1) rest
  end.

(** [1, 2, ..., n] *)
Definition one_to (n : uint256) : list uint256 :=
  map N.of_nat (seq 1 (N.to_nat n)).

(** ** The proposal store against the log *)

(** What ties the stored proposals to the [DebtProposed] events. *)
Record StoreInv (st : State) : Prop := mkStoreInv {
  logged_ids_allocated :
    forall e id, List.In e (events st) -> proposalId e = Some id ->
                 1 <= id <= pendingDebtCounter st;
  unresolved_is_stored :
    forall id c d t a m,
      List.In (DebtProposed id c d t a m) (events st) ->
      resolutions id (events st) = 0%nat ->
      pendingDebts st id = PendingDebt.Build c d t a m true;
  open_is_logged :
    forall id, isOpen st id = true ->
      exists c d t a m, List.In (DebtProposed id c d t a m) (events st);
  allocated_open_or_resolved :
    forall id, 1 <= id <= pendingDebtCounter st ->
      isOpen st id = true \/ (1 <= resolutions id (events st))%nat;
  parties_distinct :
    forall id c d t a m,
      List.In (DebtProposed id c d t a m) (events st) -> c <> d;
  resolved_is_logged :
    forall id, (1 <= resolutions id (events st))%nat ->
      exists c d t a m, List.In (DebtProposed id c d t a m) (events st)
}.

(** ** The pending balance read from the store *)

(** What the stored proposal [id] adds to "[debtor] owes [creditor]" on
    [asset]: its amount when it exists and has these parties and token. *)
Definition stored_contribution (st : State) (asset debtor creditor : address)
    (id : uint256) : N :=
  let p := pendingDebts st id in
  if PendingDebt.exists_ p
     && (PendingDebt.debtor p =? debtor)
     && (PendingDebt.creditor p =? creditor)
     && (PendingDebt.token p =? asset)
  then PendingDebt.amount p else 0.

Definition sum_over (g : uint256 -> N) (ids : list uint256) : N :=
  fold_right (fun id acc => g id + acc) 0 ids.

(** The sum over the slots [pendingDebts[1 .. pendingDebtCounter]]. *)
Definition stored_pending (st : State) (asset debtor creditor : address) : N :=
  sum_over (stored_contribution st asset debtor creditor)
           (one_to (pendingDebtCounter st)).

(** ** The bot's [history] command *)

Definition isDebtAddedBetween (debtor creditor : address) (e : Event) : bool :=
  match e with
  | DebtAdded _ d c _ _ _ _ => (d =? debtor) && (c =? creditor)
  | _ => false
  end.

(** The filter of the proposals by the two wallets, without a token. *)
Definition relevantProposedEvent (user1 user2 : address) (e : Event) : bool :=
  match e with
  | DebtProposed _ creditor debtor _ _ _ =>
      ((creditor =? user1) && (debtor =? user2))
      || ((creditor =? user2) && (debtor =? user1))
  | _ => false
  end.

(** The events behind the two sections of the reply, "Confirmed Debts"
    and "Pending Debts", each in the order the lines are printed; [None]
    is the reply "No history found with this user." *)
Definition history (st : State) (authorWallet targetWallet : address)
    : option (list Event * list Event) :=
  let log := event_log st in
  let debtAddedEvents1 :=
    List.filter (isDebtAddedBetween authorWallet targetWallet) log in
  let debtAddedEvents2 :=
    List.filter (isDebtAddedBetween targetWallet authorWallet) log in
  let confirmedDebtEvents := (debtAddedEvents1 ++ debtAddedEvents2)%list in
  let allDebtProposedEvents := List.filter isDebtProposed log in
  let relevantProposedEvents :=
    List.filter (relevantProposedEvent authorWallet targetWallet)
                allDebtProposedEvents in
  let pendingDebtEvents :=
    List.filter (unresolvedEvent log) relevantProposedEvents in
  if ((List.length confirmedDebtEvents =? 0)%nat
      && (List.length pendingDebtEvents =? 0)%nat)%bool
  then None
  else Some (confirmedDebtEvents, pendingDebtEvents).

Definition amount_of (e : Event) : N :=
  match e with
  | DebtAdded _ _ _ _ amount _ _ => amount
  | DebtSettled _ _ _ amount => amount
  | DebtProposed _ _ _ _ amount _ => amount
  | _ => 0
  end.

Definition token_of (e : Event) : option address :=
  match e with
  | DebtAdded _ _ _ token _ _ _ => Some token
  | DebtSettled _ _ token _ => Some token
  | DebtProposed _ _ _ token _ _ => Some token
  | _ => None
  end.

Definition onToken (token : address) (e : Event) : bool :=
  match token_of e with
  | Some t => t =? token
  | None => false
  end.

(** ** The ledger against the log *)

(** In a log held newest first: every [DebtAdded] event lies directly
    under a [DebtConfirmed] event, every [DebtConfirmed] event directly
    above a [DebtAdded] event, and the pair repeats an older
    [DebtProposed] event of the confirmed id.  [confirming] is the id of
    the [DebtConfirmed] event just passed, if any. *)
Fixpoint traceable (confirming : option uint256) (log : list Event) : Prop :=
  match log with
  | [] => confirming = None
  | e :: older =>
      match e, confirming with
      | DebtConfirmed id, None => traceable (Some id) older
      | DebtAdded _ d c t v m _, Some id =>
          List.In (DebtProposed id c d t v m) older /\ traceable None older
      | DebtConfirmed _, Some _ => False
      | DebtAdded _ _ _ _ _ _ _, None => False
      | _, None => traceable None older
      | _, Some _ => False
      end
  end.

(** What an event adds to "A owes B, less what B owes A" on an asset. *)
Definition signed_event (asset A B : address) (e : Event) : Z :=
  match e with
  | DebtAdded _ d c t v _ _ =>
      if negb (t =? asset) then 0%Z
      else if (d =? A) && (c =? B) then Z.of_N v
      else if (d =? B) && (c =? A) then (- Z.of_N v)%Z
      else 0%Z
  | DebtSettled d c t v =>
      if negb (t =? asset) then 0%Z
      else if (d =? A) && (c =? B) then (- Z.of_N v)%Z
      else if (d =? B) && (c =? A) then Z.of_N v
      else 0%Z
  | _ => 0%Z
  end.

Definition log_net (asset A B : address) (log : list Event) : Z :=
  fold_right (fun e acc => (signed_event asset A B e + acc)%Z) 0%Z log.

(** What the ledger holds between A and B beyond what the log accounts
    for. *)
Definition unlogged (asset A B : address) (st : State) : Z :=
  (net asset A B st - log_net asset A B (events st))%Z.

(** ** Token table and identifiers ([tokenUtils.ts]) *)

(** Strings are strings of ASCII characters, one byte each; on those,
    [toUpperCase], [toLowerCase] and [slice] of JavaScript are the
    functions below. *)
Definition upper_char (c : ascii) : ascii :=
  let n := N_of_ascii c in
  if (97 <=? n) && (n <=? 122) then ascii_of_N (n - 32) else c.


Fixpoint map_chars (f : ascii -> ascii) (s : string) : string :=
  match s with
  | EmptyString => EmptyString
  | String c rest => String (f c) (map_chars f rest)
  end.

Definition toUpperCase : string -> string := map_chars upper_char.

(** [haystack.includes(needle)] *)
Fixpoint includes (needle haystack : string) : bool :=
  String.prefix needle haystack
  || match haystack with
     | EmptyString => false
     | String _ rest => includes needle rest
     end.

Module TokenInfo.
Record t : Type := Build {
  address : string;
  decimals : N;
  symbol : string
}.
End TokenInfo.

(** The object literal [SUPPORTED_TOKENS], its entries in the order
    [Object.entries] lists them. *)
Definition SUPPORTED_TOKENS : list (string * (string * N)) :=
  [ ("ETH", ("0x0000000000000000000000000000000000000000", 18));
    ("USDC", ("0x75faf114eafb1BDbe2F0316DF893fd58CE46AA4d", 6)) ].

(** [table[key]]: the entry under an own key.  (The keys asked for are
    upper-cased, so none is a property the object inherits.) *)
Fixpoint entry (key : string) (table : list (string * (string * N)))
    : option (string * N) :=
  match table with
  | [] => None
  | (symbol, info) :: rest =>
      if String.eqb symbol key then Some info else entry key rest
  end.



Section Ethers.
(** [ethers.isAddress] and [ethers.getAddress], which are the library's. *)
Variable isAddress : string -> bool.
Variable getAddress : string -> string.

(** [parseTokenIdentifier]; [None] is the [Error] it throws. *)
Definition parseTokenIdentifier (tokenIdentifier : string)
    : option TokenInfo.t :=
  let upperTokenIdentifier := toUpperCase tokenIdentifier in
  if isAddress tokenIdentifier then
    Some (TokenInfo.Build (getAddress tokenIdentifier) 18
                          (String.substring 0 8 tokenIdentifier ++ "..."))
  else
    match entry upperTokenIdentifier SUPPORTED_TOKENS with
    | Some tokenInfo =>
        Some (TokenInfo.Build (fst tokenInfo) (snd tokenInfo)
                              upperTokenIdentifier)
    | None => None
    end.

(** [getCurrencyTokenInfo] of the bot: the [switch] on the upper-cased
    currency code, case by case. *)
Definition getCurrencyTokenInfo (currency : string) : option TokenInfo.t :=
  let currencyUpper := toUpperCase currency in
  if String.eqb currencyUpper "USD" || String.eqb currencyUpper "USDC"
  then parseTokenIdentifier "USDC"
  else if String.eqb currencyUpper "ETH" || String.eqb currencyUpper "ETHER"
  then parseTokenIdentifier "ETH"
  else if String.eqb currencyUpper "KRW" || String.eqb currencyUpper "WON"
  then parseTokenIdentifier "USDC"
  else if String.eqb currencyUpper "JPY" || String.eqb currencyUpper "YEN"
  then parseTokenIdentifier "USDC"
  else parseTokenIdentifier "USDC".
End Ethers.

(** ** Network name and explorer link *)

(** [RPC_URL] is an environment variable: a string, or [None] when it is
    not set; [!RPC_URL] holds of the unset and of the empty one. *)
Definition unset (RPC_URL : option string) : bool :=
  match RPC_URL with
  | None => true
  | Some url => String.eqb url ""
  end.

Definition url_of (RPC_URL : option string) : string :=
  match RPC_URL with
  | None => ""
  | Some url => url
  end.

Definition getBlockExplorerUrl (RPC_URL : option string) (txHash : string)
    : option string :=
  if unset RPC_URL then None
  else
    let url := url_of RPC_URL in
    if includes "localhost" url || includes "127.0.0.1" url then None
    else if includes "mainnet" url
    then Some ("https://etherscan.io/tx/" ++ txHash)
    else if includes "sepolia" url
    then Some ("https://sepolia.etherscan.io/tx/" ++ txHash)
    else if includes "goerli" url
    then Some ("https://goerli.etherscan.io/tx/" ++ txHash)
    else None.

Definition getNetworkName (RPC_URL : option string) : string :=
  if unset RPC_URL then "Unknown"
  else
    let url := url_of RPC_URL in
    if includes "localhost" url || includes "127.0.0.1" url
    then "Local Development"
    else if includes "mainnet" url then "Ethereum Mainnet"
    else if includes "sepolia" url then "Sepolia Testnet"
    else if includes "goerli" url then "Goerli Testnet"
    else "Unknown Network".

(** ** Wallets the bot holds a key for *)

(** [userPrivateKeys]: the keys the bot holds in memory, by address.  A
    key that is missing or empty is no key ([!privateKey]).  The call of
    the contract's getter is taken to succeed. *)
Definition held (userPrivateKeys : address -> option string) (a : address)
    : option string :=
  match userPrivateKeys a with
  | Some privateKey =>
      if String.eqb privateKey "" then None else Some privateKey
  | None => None
  end.

Definition getWalletForDiscordId (st : State)
    (userPrivateKeys : address -> option string) (discordId : string)
    : option (address * string) :=
  let address := discordToWallet st discordId in
  if address =? 0 then None
  else
    match held userPrivateKeys address with
    | None => None
    | Some privateKey => Some (address, privateKey)
    end.

Module OrphanCheck.
Record t : Type := Build { isOrphaned : bool; address : option N }.
End OrphanCheck.

Definition isOrphanedRegistration (st : State)
    (userPrivateKeys : address -> option string) (discordId : string)
    : OrphanCheck.t :=
  let address := discordToWallet st discordId in
  if address =? 0 then OrphanCheck.Build false None
  else
    let hasPrivateKey :=
      match held userPrivateKeys address with
      | Some _ => true
      | None => false
      end in
    OrphanCheck.Build (negb hasPrivateKey)
                      (if hasPrivateKey then None else Some address).

(** The [register] command: what it answers, and the keys and the
    contract state it leaves.  [newWallet] and [newKey] are the address
    and the key of [Wallet.createRandom()].  (Funding the wallet and the
    direct messages are left out: they touch neither.) *)
Inductive RegisterReply : Type :=
| AlreadyRegistered
| RecoveryNeeded (registered : option address)
| RegistrationConflict
| RegistrationFailed (reason : Revert)
| NewWalletSent.

Definition register (st : State) (userPrivateKeys : address -> option string)
    (authorId : string) (newWallet : address) (newKey : string)
    : RegisterReply * (address -> option string) * State :=
  match getWalletForDiscordId st userPrivateKeys authorId with
  | Some _ => (AlreadyRegistered, userPrivateKeys, st)
  | None =>
      let orphanCheck := isOrphanedRegistration st userPrivateKeys authorId in
      if OrphanCheck.isOrphaned orphanCheck
      then (RecoveryNeeded (OrphanCheck.address orphanCheck),
            userPrivateKeys, st)
      else
        let keys := <[newWallet := Some newKey]> userPrivateKeys in
        match registerUser authorId newWallet st with
        | Ok st' => (NewWalletSent, keys, st')
        | Err DiscordIdRegistered => (RegistrationConflict, keys, st)
        | Err reason => (RegistrationFailed reason, keys, st)
        end
  end.

(** ** Example states *)

Definition MAX_DEBT_TXS : list Tx :=
  [mkTx 0 (CallProposeDebt 2 9 1 MAX_UINT256 "rent");
   mkTx 0 (CallConfirmDebt 1 1)].

(** Account 1 owes account 2 the largest [uint256] amount of asset 9:
    account 2 proposed it and account 1 confirmed. *)
Definition full_ledger : State := run MAX_DEBT_TXS init.

(** Account 1 owes account 2 the amount 50 of asset 9. *)
Definition owing : State :=
  run [mkTx 1 (CallProposeDebt 2 9 1 50 "rent"); mkTx 2 (CallConfirmDebt 1 1)]
      init.

(** Account 1 has proposed that account 2 owes it 7 of asset 9, as the
    bot's [add-debt] command does for its author; the proposal is open. *)
Definition proposed : State :=
  run [mkTx 1 (CallProposeDebt 1 9 2 7 "taxi")] init.

(** The same after account 2 has confirmed. *)
Definition agreed : State :=
  run [mkTx 2 (CallConfirmDebt 2 1)] proposed.

(** * Properties *)

(** ** Reasoning about reverts and storage writes *)

Lemma bind_Ok {A B : Type} (m : Result A) (k : A -> Result B) (b : B) :
  bind m k = Ok b <-> exists a, m = Ok a /\ k a = Ok b.
Proof.
  destruct m as [a|r]; simpl; split.
  - intros H. exists a. auto.
  - intros (a' & Ha & Hk). injection Ha as ->. exact Hk.
  - discriminate.
  - intros (a' & Ha & _). discriminate.
Qed.

Lemma require_Ok (b : bool) (r : Revert) (u : unit) :
  require b r = Ok u <-> b = true.
Proof. destruct b, u; simpl; split; intros; congruence. Qed.

Lemma checked_add_Ok (a b v : uint256) :
  checked_add a b = Ok v <-> v = a + b /\ a + b <= MAX_UINT256.
Proof.
  unfold checked_add. destruct (N.leb_spec (a + b) MAX_UINT256); split.
  - intros [= <-]. auto.
  - intros [-> _]. reflexivity.
  - discriminate.
  - intros [_ H']. lia.
Qed.

Lemma checked_sub_Ok (a b v : uint256) :
  checked_sub a b = Ok v <-> v = a - b /\ b <= a.
Proof.
  unfold checked_sub. destruct (N.leb_spec b a); split.
  - intros [= <-]. auto.
  - intros [-> _]. reflexivity.
  - discriminate.
  - intros [_ H']. lia.
Qed.

(** Splits a successful run of a function body into its steps. *)
Ltac steps H :=
  repeat match type of H with
  | bind (require _ _) _ = Ok _ =>
      let u := fresh "u" in let Hc := fresh "Hcheck" in
      apply bind_Ok in H; destruct H as (u & Hc & H);
      apply require_Ok in Hc
  | bind _ _ = Ok _ =>
      let a := fresh "a" in let Ha := fresh "Hstep" in
      apply bind_Ok in H; destruct H as (a & Ha & H)
  end.

Lemma debts_set_debt (t d c : address) (v : uint256) (st : State)
    (t' d' c' : address) :
  debts (set_debt t d c v st) t' d' c' =
  if decide (t = t' /\ d = d' /\ c = c') then v else debts st t' d' c'.
Proof.
  unfold set_debt; simpl. unfold insert, fn_insert.
  repeat (destruct (decide _); subst; simpl); try reflexivity;
    intuition congruence.
Qed.

Lemma debts_set_debt_eq (t d c : address) (v : uint256) (st : State) :
  debts (set_debt t d c v st) t d c = v.
Proof. rewrite debts_set_debt. destruct (decide _); intuition. Qed.

Lemma debts_set_debt_ne (t d c : address) (v : uint256) (st : State)
    (t' d' c' : address) :
  ~ (t = t' /\ d = d' /\ c = c') ->
  debts (set_debt t d c v st) t' d' c' = debts st t' d' c'.
Proof. intros H. rewrite debts_set_debt. destruct (decide _); intuition. Qed.

#[global] Arguments set_debt : simpl never.

(** Closes [~ (t = t' /\ d = d' /\ c = c')] for two different keys. *)
Ltac distinct_keys :=
  let H := fresh in
  intros H; destruct H as (? & ? & ?); subst;
  solve [congruence | tauto | intuition (auto; congruence)].

(** ** The netting engine *)

(** What a call of [addDebt] that returns has done. *)
Lemma addDebt_effect (token d c : address) (amount : uint256) (memo : string)
    (ts : uint256) (st st' : State) :
  addDebt token d c amount memo ts st = Ok st' ->
  let opposite := debts st token c d in
  d <> c /\ 0 < amount /\
  debts st' token c d = (if amount <=? opposite then opposite - amount else 0) /\
  debts st' token d c =
    (if amount <=? opposite then debts st token d c
     else debts st token d c + (amount - opposite)) /\
  (forall t' d' c',
      ~ (t' = token /\ ((d' = d /\ c' = c) \/ (d' = c /\ c' = d))) ->
      debts st' t' d' c' = debts st t' d' c') /\
  debtActionCounter st' = debtActionCounter st + 1 /\
  events st' =
    DebtAdded (debtActionCounter st + 1) d c token amount memo ts :: events st /\
  pendingDebts st' = pendingDebts st /\
  pendingDebtCounter st' = pendingDebtCounter st /\
  discordToWallet st' = discordToWallet st /\
  walletToDiscord st' = walletToDiscord st.
Proof.
  intros H opposite. unfold addDebt in H. fold opposite in H. steps H.
  apply negb_true_iff, N.eqb_neq in Hcheck. apply N.ltb_lt in Hcheck0.
  apply checked_add_Ok in Hstep0 as [-> Hfit]. injection H as <-.
  split; [exact Hcheck|]. split; [exact Hcheck0|].
  destruct (N.leb_spec amount opposite) as [Hle|Hgt].
  - steps Hstep. apply checked_sub_Ok in Hstep0 as [-> _].
    injection Hstep as <-. cbn.
    repeat split; try reflexivity.
    + apply debts_set_debt_eq.
    + apply debts_set_debt_ne. distinct_keys.
    + intros t' d' c' Hne. apply debts_set_debt_ne. distinct_keys.
  - steps Hstep. apply checked_sub_Ok in Hstep0 as [-> _].
    apply checked_add_Ok in Hstep1 as [-> _]. injection Hstep as <-.
    destruct (N.ltb_spec 0 opposite) as [Hpos|Hzero]; cbn.
    + repeat split; try reflexivity.
      * rewrite debts_set_debt_ne by distinct_keys.
        apply debts_set_debt_eq.
      * rewrite debts_set_debt_eq.
        rewrite debts_set_debt_ne by distinct_keys. reflexivity.
      * intros t' d' c' Hne.
        rewrite !debts_set_debt_ne by distinct_keys. reflexivity.
    + repeat split; try reflexivity.
      * rewrite debts_set_debt_ne by distinct_keys.
        unfold opposite in Hzero. lia.
      * apply debts_set_debt_eq.
      * intros t' d' c' Hne.
        rewrite !debts_set_debt_ne by distinct_keys. reflexivity.
Qed.

Lemma netting_fits_decided (token d c : address) (amount : uint256) (st : State) :
  netting_fits token d c amount st \/ ~ netting_fits token d c amount st.
Proof. unfold netting_fits. lia. Qed.

Lemma addDebt_returns (token d c : address) (amount : uint256) (memo : string)
    (ts : uint256) (st : State) :
  d <> c -> 0 < amount -> netting_fits token d c amount st ->
  exists st', addDebt token d c amount memo ts st = Ok st'.
Proof.
  intros Hne Hpos [Hfit Hcnt]. unfold addDebt.
  replace (negb (d =? c)) with true
    by (symmetry; apply negb_true_iff, N.eqb_neq; exact Hne).
  replace (0 <? amount) with true by (symmetry; apply N.ltb_lt; exact Hpos).
  simpl. unfold checked_sub, checked_add.
  destruct (N.leb_spec amount (debts st token c d)) as [Hle|Hgt].
  - simpl. replace (_ <=? MAX_UINT256) with true
      by (symmetry; apply N.leb_le; exact Hcnt).
    simpl. eauto.
  - replace (debts st token c d <=? amount) with true
      by (symmetry; apply N.leb_le; lia).
    simpl.
    assert (Hd : debts (if 0 <? debts st token c d
                        then set_debt token c d 0 st else st) token d c
                 = debts st token d c).
    { destruct (0 <? _); [|reflexivity].
      apply debts_set_debt_ne. distinct_keys. }
    rewrite Hd.
    replace (debts st token d c + _ <=? MAX_UINT256) with true
      by (symmetry; apply N.leb_le; lia).
    simpl.
    replace (_ <=? MAX_UINT256) with true
      by (symmetry; apply N.leb_le;
          destruct (0 <? debts st token c d); exact Hcnt).
    simpl. eauto.
Qed.

Lemma addDebt_panics (token d c : address) (amount : uint256) (memo : string)
    (ts : uint256) (st : State) :
  d <> c -> 0 < amount -> ~ netting_fits token d c amount st ->
  addDebt token d c amount memo ts st = Err ArithmeticPanic.
Proof.
  intros Hne Hpos Hnot.
  destruct (addDebt token d c amount memo ts st) as [st'|r] eqn:E.
  - exfalso. apply Hnot. unfold netting_fits.
    pose proof E as E'. unfold addDebt in E'. steps E'.
    apply checked_add_Ok in Hstep0 as [_ Hcnt].
    assert (Hc : debtActionCounter a = debtActionCounter st).
    { destruct (amount <=? debts st token c d); steps Hstep;
        injection Hstep as <-; [reflexivity|].
      destruct (0 <? debts st token c d); reflexivity. }
    rewrite Hc in Hcnt. split; [|exact Hcnt].
    destruct (N.leb_spec amount (debts st token c d)) as [Hle|Hgt];
      [left; exact Hle|right].
    steps Hstep. apply checked_add_Ok in Hstep1 as [_ Hfit].
    apply checked_sub_Ok in Hstep0 as [-> _].
    destruct (0 <? debts st token c d); [|exact Hfit].
    rewrite debts_set_debt_ne in Hfit by distinct_keys. exact Hfit.
  - unfold addDebt in E.
    replace (negb (d =? c)) with true in E
      by (symmetry; apply negb_true_iff, N.eqb_neq; exact Hne).
    replace (0 <? amount) with true in E
      by (symmetry; apply N.ltb_lt; exact Hpos).
    simpl in E. unfold checked_sub, checked_add in E.
    repeat match type of E with
    | context [if ?b then _ else _] => destruct b; simpl in E
    end; congruence.
Qed.

(** The example of the specification, for any asset and any two accounts:
    A owes B 100, B owes A 20, A owes B 80, B owes A 200. *)
(** Evaluates the closed right-hand side of an equation. *)
Ltac evalN H :=
  match type of H with
  | ?l = ?r => let v := eval vm_compute in r in change (l = v) in H
  end.

Lemma netting_example (asset A B : address) (m1 m2 m3 m4 : string)
    (t1 t2 t3 t4 : uint256) :
  A <> B ->
  exists s1 s2 s3 s4,
    addDebt asset A B 100 m1 t1 init = Ok s1 /\
    addDebt asset B A 20 m2 t2 s1 = Ok s2 /\
    debts s2 asset B A = 0 /\ debts s2 asset A B = 80 /\
    addDebt asset A B 80 m3 t3 s2 = Ok s3 /\
    debts s3 asset A B = 160 /\
    addDebt asset B A 200 m4 t4 s3 = Ok s4 /\
    debts s4 asset A B = 0 /\ debts s4 asset B A = 40.
Proof.
  intros Hne.
  assert (Hmax : 1000 <= MAX_UINT256) by (vm_compute; discriminate).
  destruct (addDebt_returns asset A B 100 m1 t1 init) as [s1 E1];
    [exact Hne | reflexivity | split; cbn; lia |].
  pose proof (addDebt_effect _ _ _ _ _ _ _ _ E1)
    as (_ & _ & Hba1 & Hab1 & _ & Hc1 & _).
  evalN Hba1. evalN Hab1. evalN Hc1.
  destruct (addDebt_returns asset B A 20 m2 t2 s1) as [s2 E2];
    [congruence | reflexivity | split; [left|]; lia |].
  pose proof (addDebt_effect _ _ _ _ _ _ _ _ E2)
    as (_ & _ & Hab2 & Hba2 & _ & Hc2 & _).
  rewrite Hab1 in Hab2. rewrite Hab1, Hba1 in Hba2. evalN Hab2. evalN Hba2.
  destruct (addDebt_returns asset A B 80 m3 t3 s2) as [s3 E3];
    [exact Hne | reflexivity | split; [right|]; lia |].
  pose proof (addDebt_effect _ _ _ _ _ _ _ _ E3)
    as (_ & _ & Hba3 & Hab3 & _ & Hc3 & _).
  rewrite Hba2 in Hba3. rewrite Hba2, Hab2 in Hab3. evalN Hba3. evalN Hab3.
  destruct (addDebt_returns asset B A 200 m4 t4 s3) as [s4 E4];
    [congruence | reflexivity | split; [right|]; lia |].
  pose proof (addDebt_effect _ _ _ _ _ _ _ _ E4)
    as (_ & _ & Hab4 & Hba4 & _).
  rewrite Hab3 in Hab4. rewrite Hab3, Hba3 in Hba4. evalN Hab4. evalN Hba4.
  exists s1, s2, s3, s4. repeat split; assumption.
Qed.

(** C1 (as the code has it).  A call [addDebt(asset, debtor, creditor,
    amount, memo)] with [debtor <> creditor] and [amount > 0] returns
    exactly when checked [uint256] arithmetic allows it (the debtor's entry
    plus [amount - opposite] and the action counter plus one stay at most
    [2^256 - 1]) and aborts with the arithmetic panic otherwise.  When it
    returns, with [opposite] the entry (creditor, debtor) before the call:
    if [opposite >= amount] the entry (creditor, debtor) is
    [opposite - amount] and the entry (debtor, creditor) is unchanged;
    otherwise the entry (creditor, debtor) is [0] and the entry (debtor,
    creditor) has grown by [amount - opposite]; the one event it emits is
    [DebtAdded] with the debtor, creditor and gross amount it was given.
    From the all-zero state, A owes B 100, B owes A 20, A owes B 80 and
    B owes A 200 give (A,B) = 80 and (B,A) = 0, then (A,B) = 160, then
    (A,B) = 0 and (B,A) = 40. *)
Theorem netting_step (asset debtor creditor : address) (amount : uint256)
    (memo : string) (timestamp : uint256) (st : State) :
  debtor <> creditor -> 0 < amount ->
  let opposite := debts st asset creditor debtor in
  (netting_fits asset debtor creditor amount st <->
   exists st', addDebt asset debtor creditor amount memo timestamp st = Ok st')
  /\ (~ netting_fits asset debtor creditor amount st ->
      addDebt asset debtor creditor amount memo timestamp st
      = Err ArithmeticPanic)
  /\ (forall st',
        addDebt asset debtor creditor amount memo timestamp st = Ok st' ->
        (amount <= opposite ->
         debts st' asset creditor debtor = opposite - amount /\
         debts st' asset debtor creditor = debts st asset debtor creditor) /\
        (opposite < amount ->
         debts st' asset creditor debtor = 0 /\
         debts st' asset debtor creditor
         = debts st asset debtor creditor + (amount - opposite)) /\
        events st' =
          DebtAdded (debtActionCounter st + 1) debtor creditor asset amount
                    memo timestamp :: events st)
  /\ (forall A B : address, A <> B ->
      exists s1 s2 s3 s4,
        addDebt asset A B 100 memo timestamp init = Ok s1 /\
        addDebt asset B A 20 memo timestamp s1 = Ok s2 /\
        debts s2 asset B A = 0 /\ debts s2 asset A B = 80 /\
        addDebt asset A B 80 memo timestamp s2 = Ok s3 /\
        debts s3 asset A B = 160 /\
        addDebt asset B A 200 memo timestamp s3 = Ok s4 /\
        debts s4 asset A B = 0 /\ debts s4 asset B A = 40).
Proof.
  intros Hne Hpos opposite.
  split; [split|split; [|split]].
  - intros Hfit. now apply addDebt_returns.
  - intros [st' E].
    destruct (netting_fits_decided asset debtor creditor amount st) as [H|H];
      [exact H|].
    rewrite (addDebt_panics _ _ _ _ memo timestamp _ Hne Hpos H) in E.
    discriminate.
  - now apply addDebt_panics.
  - intros st' H.
    apply addDebt_effect in H as (_ & _ & Hcd & Hdc & _ & _ & Hev & _).
    fold opposite in Hcd, Hdc.
    split; [|split; [|exact Hev]]; intros Hcmp.
    + replace (amount <=? opposite) with true in Hcd, Hdc
        by (symmetry; apply N.leb_le; assumption).
      split; assumption.
    + replace (amount <=? opposite) with false in Hcd, Hdc
        by (symmetry; apply N.leb_gt; assumption).
      split; assumption.
  - intros A B HAB. now apply netting_example.
Qed.

(** C1 (counterexample).  Account 1 owes account 2 [2^256 - 1] of asset 9
    after one proposal and its confirmation, and account 2 owes nothing
    back.  A further debt of 1 from account 1 to account 2 has distinct
    parties and a positive amount, yet the call aborts with the arithmetic
    panic: the entry is not increased, and the confirmation that reaches
    [addDebt] with it leaves the ledger as it was. *)
Lemma netting_step_overflow :
  debts full_ledger 9 1 2 = MAX_UINT256 /\
  debts full_ledger 9 2 1 = 0 /\
  (1 : address) <> 2 /\ 0 < 1 /\
  addDebt 9 1 2 1 "snack" 0 full_ledger = Err ArithmeticPanic /\
  ~ (exists st',
        addDebt 9 1 2 1 "snack" 0 full_ledger = Ok st' /\
        debts st' 9 2 1 = 0 /\
        debts st' 9 1 2
        = debts full_ledger 9 1 2 + (1 - debts full_ledger 9 2 1)) /\
  debts (run [mkTx 1 (CallProposeDebt 2 9 1 1 "snack");
              mkTx 1 (CallConfirmDebt 1 2)] full_ledger) 9 1 2
  = MAX_UINT256.
Proof.
  assert (E : addDebt 9 1 2 1 "snack" 0 full_ledger = Err ArithmeticPanic)
    by (vm_compute; reflexivity).
  repeat split; try (vm_compute; reflexivity); try discriminate.
  intros (st' & H & _). rewrite E in H. discriminate.
Qed.

Lemma netting_step_witness :
  ((1 : address) <> 2 /\ 0 < 20) /\
  exists st', addDebt 9 1 2 20 "taxi" 7 init = Ok st' /\
              debts st' 9 2 1 = 0 /\ debts st' 9 1 2 = 20.
Proof.
  assert (Hne : (1 : address) <> 2) by discriminate.
  assert (Hpos : 0 < 20) by reflexivity.
  split; [split; assumption|].
  destruct (netting_step 9 1 2 20 "taxi" 7 init Hne Hpos)
    as (Hreturns & _ & Heffect & _).
  destruct (proj1 Hreturns) as [st' E].
  { split; [right|]; vm_compute; discriminate. }
  exists st'. split; [exact E|].
  destruct (Heffect st' E) as (_ & Hgt & _).
  destruct (Hgt eq_refl) as [H1 H2].
  split; [exact H1|exact H2].
Defined.

(** ** Netting conservation *)

Section Pair.
Variables asset A B : address.

Lemma applyDebt_conserves (x : Applied) (st st' : State) :
  applyDebt asset A B x st = Ok st' ->
  netted asset A B st -> netted asset A B st' /\ net asset A B st' = (net asset A B st + signed x)%Z.
Proof.
  unfold applyDebt, signed, netted, net.
  destruct (direction x); intros H Hn;
    apply addDebt_effect in H as (Hne & Hpos & Hcd & Hdc & _);
    rewrite Hcd, Hdc;
    destruct (N.leb_spec (applied_amount x) (debts st asset B A));
    destruct (N.leb_spec (applied_amount x) (debts st asset A B));
    lia.
Qed.

Lemma applyDebts_conserves (xs : list Applied) (st st' : State) :
  applyDebts asset A B xs st = Ok st' ->
  netted asset A B st -> netted asset A B st' /\ net asset A B st' = (net asset A B st + signed_sum xs)%Z.
Proof.
  revert st. induction xs as [|x xs IH]; intros st H Hn; simpl in H.
  - injection H as <-. simpl. split; [exact Hn|lia].
  - steps H. destruct (applyDebt_conserves _ _ _ Hstep Hn) as [Hn1 Hs1].
    destruct (IH _ H Hn1) as [Hn2 Hs2]. split; [exact Hn2|].
    simpl. lia.
Qed.

Lemma applyDebts_app (xs ys : list Applied) (st : State) :
  applyDebts asset A B (xs ++ ys) st
  = bind (applyDebts asset A B xs st) (applyDebts asset A B ys).
Proof.
  revert st. induction xs as [|x xs IH]; intros st; simpl.
  - reflexivity.
  - destruct (applyDebt asset A B x st); simpl; [apply IH|reflexivity].
Qed.

(** Every prefix of a sequence of calls that all return, returns. *)
Lemma applyDebts_prefix (k : nat) (xs : list Applied) (st st' : State) :
  applyDebts asset A B xs st = Ok st' ->
  exists stk, applyDebts asset A B (firstn k xs) st = Ok stk.
Proof.
  intros H. rewrite <- (firstn_skipn k xs), applyDebts_app in H.
  apply bind_Ok in H as (stk & Hk & _). eauto.
Qed.
End Pair.

(** C2.  For a fixed asset and pair (A, B), take any finite sequence of
    [applyDebt] calls between them that all return, starting from the
    all-zero state.  After each call (after every prefix of the sequence)
    at most one of the entries (A,B) and (B,A) is non-zero, and the entry
    (A,B) minus the entry (B,A) is the signed sum of the amounts applied
    so far, A-owes-B amounts counted positive and B-owes-A negative. *)
Theorem netting_conservation (asset A B : address) (calls : list Applied)
    (final : State) :
  applyDebts asset A B calls init = Ok final ->
  forall k : nat,
    exists st,
      applyDebts asset A B (firstn k calls) init = Ok st /\
      (debts st asset A B = 0 \/ debts st asset B A = 0) /\
      (Z.of_N (debts st asset A B) - Z.of_N (debts st asset B A))%Z
      = signed_sum (firstn k calls).
Proof.
  intros H k.
  destruct (applyDebts_prefix asset A B k _ _ _ H) as [st Hk].
  exists st. split; [exact Hk|].
  apply applyDebts_conserves in Hk as [Hn Hs].
  - split; [exact Hn|]. unfold net in Hs. simpl in Hs. lia.
  - left. reflexivity.
Qed.

Lemma netting_conservation_witness :
  exists st,
    applyDebts 9 1 2 [mkApplied AowesB 100 "rent" 1;
                      mkApplied BowesA 20 "taxi" 2;
                      mkApplied AowesB 80 "food" 3] init = Ok st /\
    (debts st 9 1 2 = 0 \/ debts st 9 2 1 = 0) /\
    (Z.of_N (debts st 9%N 1%N 2%N) - Z.of_N (debts st 9%N 2%N 1%N))%Z
    = 160%Z.
Proof.
  pose (calls := [mkApplied AowesB 100 "rent" 1; mkApplied BowesA 20 "taxi" 2;
                  mkApplied AowesB 80 "food" 3;
                  mkApplied BowesA 200 "trip" 4]).
  pose (final := or_unchanged init (applyDebts 9 1 2 calls init)).
  assert (H : applyDebts 9 1 2 calls init = Ok final)
    by (vm_compute; reflexivity).
  exact (netting_conservation 9 1 2 calls final H 3).
Defined.

(** ** What the public functions do when they return *)

Lemma proposeDebt_effect (sender token debtor : address) (amount : uint256)
    (memo : string) (st st' : State) :
  proposeDebt sender token debtor amount memo st = Ok st' ->
  let id := pendingDebtCounter st + 1 in
  debtor <> sender /\ id <= MAX_UINT256 /\
  st' = emit (DebtProposed id sender debtor token amount memo)
          (set_pendingDebt id
             (PendingDebt.Build sender debtor token amount memo true)
             (set_pendingDebtCounter id st)).
Proof.
  intros H id. unfold proposeDebt in H. steps H.
  apply negb_true_iff, N.eqb_neq in Hcheck.
  apply checked_add_Ok in Hstep as [-> Hfit]. injection H as <-.
  repeat split; assumption.
Qed.

Lemma confirmDebt_effect (sender : address) (id ts : uint256)
    (st st' : State) :
  confirmDebt sender id ts st = Ok st' ->
  let pending := pendingDebts st id in
  PendingDebt.exists_ pending = true /\
  sender = PendingDebt.debtor pending /\
  exists st1,
    addDebt (PendingDebt.token pending) (PendingDebt.debtor pending)
            (PendingDebt.creditor pending) (PendingDebt.amount pending)
            (PendingDebt.memo pending) ts st = Ok st1 /\
    st' = emit (DebtConfirmed id) (set_pendingDebt id PendingDebt.zero st1).
Proof.
  intros H pending. unfold confirmDebt in H. fold pending in H. steps H.
  apply N.eqb_eq in Hcheck0. injection H as <-.
  split; [exact Hcheck|]. split; [exact Hcheck0|].
  exists a. split; [exact Hstep|reflexivity].
Qed.

Lemma rejectDebt_effect (sender : address) (id : uint256) (st st' : State) :
  rejectDebt sender id st = Ok st' ->
  let pending := pendingDebts st id in
  PendingDebt.exists_ pending = true /\
  (sender = PendingDebt.debtor pending
   \/ sender = PendingDebt.creditor pending) /\
  st' = emit (DebtRejected id) (set_pendingDebt id PendingDebt.zero st).
Proof.
  intros H pending. unfold rejectDebt in H. fold pending in H. steps H.
  apply orb_true_iff in Hcheck0. rewrite !N.eqb_eq in Hcheck0.
  injection H as <-. repeat split; assumption.
Qed.

Lemma length_zero_empty (s : string) :
  N.of_nat (String.length s) = 0 <-> s = "".
Proof.
  destruct s; simpl; split; intros H; try reflexivity; discriminate.
Qed.

Lemma registerUser_effect (discordId : string) (w : address)
    (st st' : State) :
  registerUser discordId w st = Ok st' <->
  (discordId <> "" /\ w <> 0 /\
   discordToWallet st discordId = 0 /\ walletToDiscord st w = "") /\
  st' = emit (UserRegistered discordId w) (set_registration discordId w st).
Proof.
  unfold registerUser. split.
  - intros H. steps H. injection H as <-.
    apply N.ltb_lt in Hcheck. apply negb_true_iff, N.eqb_neq in Hcheck0.
    apply N.eqb_eq in Hcheck1. apply N.eqb_eq, length_zero_empty in Hcheck2.
    repeat split; try assumption.
    intros ->. simpl in Hcheck. lia.
  - intros [(Hid & Hw & Hfree & Hwfree) ->].
    replace (0 <? N.of_nat (String.length discordId)) with true.
    2:{ symmetry. apply N.ltb_lt.
        destruct (N.eq_dec (N.of_nat (String.length discordId)) 0) as [E|E];
          [apply length_zero_empty in E; contradiction | lia]. }
    replace (negb (w =? 0)) with true
      by (symmetry; apply negb_true_iff, N.eqb_neq; exact Hw).
    rewrite Hfree, Hwfree. reflexivity.
Qed.

Lemma settleDebt_effect (ext : ExternalCall) (sender token creditor : address)
    (st st' : State) :
  settleDebt ext sender token creditor st = Ok st' ->
  let amountOwed := debts st token sender creditor in
  0 < amountOwed /\
  exists success st2,
    ext token sender creditor amountOwed (set_debt token sender creditor 0 st)
    = Ok (success, st2) /\
    st' = emit (DebtSettled sender creditor token amountOwed) st2.
Proof.
  intros H amountOwed. unfold settleDebt in H. fold amountOwed in H. steps H.
  apply N.ltb_lt in Hcheck. injection H as <-.
  split; [exact Hcheck|]. destruct a as [success st2].
  exists success, st2. split; [exact Hstep|reflexivity].
Qed.

(** ** Induction over calls and the calls nested in them *)

Scheme Call_mut := Induction for Call Sort Prop
  with Transfer_mut := Induction for Transfer Sort Prop.
Combined Scheme Call_Transfer_ind from Call_mut, Transfer_mut.

Section CallInduction.
Variable R : State -> State -> Prop.
Hypothesis R_refl : forall st, R st st.
Hypothesis R_trans : forall s1 s2 s3, R s1 s2 -> R s2 s3 -> R s1 s3.
Hypothesis R_propose :
  forall sender token debtor amount memo st st',
    proposeDebt sender token debtor amount memo st = Ok st' -> R st st'.
Hypothesis R_confirm :
  forall sender id ts st st',
    confirmDebt sender id ts st = Ok st' -> R st st'.
Hypothesis R_reject :
  forall sender id st st', rejectDebt sender id st = Ok st' -> R st st'.
Hypothesis R_register :
  forall discordId w st st',
    registerUser discordId w st = Ok st' -> R st st'.
Hypothesis R_zeroed :
  forall sender token creditor st,
    0 < debts st token sender creditor ->
    R st (set_debt token sender creditor 0 st).
Hypothesis R_settled :
  forall sender token creditor v st,
    R st (emit (DebtSettled sender creditor token v) st).

Lemma call_transfer_rel (ts : uint256) :
  (forall c st st', call ts c st = Ok st' -> R st st') /\
  (forall t st success st',
      transferFrom ts t st = Ok (success, st') -> R st st').
Proof.
  apply Call_Transfer_ind; simpl.
  - intros; eapply R_propose; eassumption.
  - intros; eapply R_confirm; eassumption.
  - intros; eapply R_reject; eassumption.
  - intros sender token creditor transfer IH st st' H.
    apply settleDebt_effect in H as (Hpos & success & st2 & Hext & ->).
    eapply R_trans; [apply R_zeroed; exact Hpos|].
    eapply R_trans; [eapply IH; exact Hext|]. apply R_settled.
  - intros; eapply R_register; eassumption.
  - intros success st b st' [= <- <-]. apply R_refl.
  - discriminate.
  - intros inner IHc rest IHt st success st' H.
    eapply R_trans; [|eapply IHt; exact H].
    destruct (call ts inner st) as [st1|r] eqn:E; simpl.
    + eapply IHc; exact E.
    + apply R_refl.
Qed.

Lemma call_rel (ts : uint256) (c : Call) (st st' : State) :
  call ts c st = Ok st' -> R st st'.
Proof. apply call_transfer_rel. Qed.

Lemma transact_rel (st : State) (tx : Tx) : R st (transact st tx).
Proof.
  unfold transact.
  destruct (call (tx_timestamp tx) (tx_call tx) st) eqn:E; simpl.
  - eapply call_rel; exact E.
  - apply R_refl.
Qed.

Lemma run_rel (txs : list Tx) (st : State) : R st (run txs st).
Proof.
  revert st. induction txs as [|tx txs IH]; intros st; simpl.
  - apply R_refl.
  - eapply R_trans; [apply transact_rel|apply IH].
Qed.
End CallInduction.

(** ** The event log only grows *)

Lemma extends_log_refl (st : State) : extends_log st st.
Proof. exists []. reflexivity. Qed.

Lemma extends_log_trans (s1 s2 s3 : State) :
  extends_log s1 s2 -> extends_log s2 s3 -> extends_log s1 s3.
Proof.
  intros [n1 H1] [n2 H2]. exists (n2 ++ n1)%list.
  rewrite H2, H1. apply app_assoc.
Qed.

Lemma call_extends_log (ts : uint256) (c : Call) (st st' : State) :
  call ts c st = Ok st' -> extends_log st st'.
Proof.
  apply call_rel.
  - apply extends_log_refl.
  - apply extends_log_trans.
  - intros sender token debtor amount memo s s' H.
    apply proposeDebt_effect in H as (_ & _ & ->).
    eexists [_]. reflexivity.
  - intros sender id t s s' H.
    apply confirmDebt_effect in H as (_ & _ & s1 & Hadd & ->).
    apply addDebt_effect in Hadd as (_ & _ & _ & _ & _ & _ & Hev & _).
    eexists [_; _]. simpl. rewrite Hev. reflexivity.
  - intros sender id s s' H.
    apply rejectDebt_effect in H as (_ & _ & ->).
    eexists [_]. reflexivity.
  - intros discordId w s s' H.
    apply registerUser_effect in H as (_ & ->).
    eexists [_]. reflexivity.
  - intros. exists []. reflexivity.
  - intros. eexists [_]. reflexivity.
Qed.

Lemma run_extends_log (txs : list Tx) (st : State) :
  extends_log st (run txs st).
Proof.
  apply run_rel with (R := extends_log).
  - apply extends_log_refl.
  - apply extends_log_trans.
  - intros. eapply (call_extends_log 0 (CallProposeDebt _ _ _ _ _)); eassumption.
  - intros sender id ts s s' H.
    exact (call_extends_log ts (CallConfirmDebt sender id) s s' H).
  - intros sender id s s' H.
    exact (call_extends_log 0 (CallRejectDebt sender id) s s' H).
  - intros discordId w s s' H.
    exact (call_extends_log 0 (CallRegisterUser discordId w) s s' H).
  - intros. exists []. reflexivity.
  - intros. eexists [_]. reflexivity.
Qed.

(** ** Counting resolutions *)

Lemma resolutions_cons (id : uint256) (e : Event) (log : list Event) :
  resolutions id (e :: log)
  = ((if isDebtConfirmed id e then 1 else 0)
     + (if isDebtRejected id e then 1 else 0)
     + resolutions id log)%nat.
Proof.
  unfold resolutions. simpl.
  destruct (isDebtConfirmed id e), (isDebtRejected id e); simpl; lia.
Qed.

Lemma resolutions_app (id : uint256) (newer log : list Event) :
  resolutions id (newer ++ log)
  = (resolutions id newer + resolutions id log)%nat.
Proof.
  induction newer as [|e newer IH]; [reflexivity|].
  change ((e :: newer) ++ log)%list with (e :: (newer ++ log))%list.
  rewrite !resolutions_cons, IH. lia.
Qed.

Lemma resolutions_rev (id : uint256) (log : list Event) :
  resolutions id (rev log) = resolutions id log.
Proof.
  induction log as [|e log IH]; [reflexivity|].
  simpl rev. rewrite resolutions_app, IH, !resolutions_cons.
  unfold resolutions at 2. simpl. lia.
Qed.

Lemma isDebtResolved_resolutions (log : list Event) (id : uint256) :
  isDebtResolved log id = negb (resolutions id log =? 0)%nat.
Proof.
  unfold isDebtResolved, resolutions.
  destruct (List.length (List.filter (isDebtConfirmed id) log));
    destruct (List.length (List.filter (isDebtRejected id) log));
    reflexivity.
Qed.

(** ** The proposal store and the log stay in step *)

Lemma isOpen_set_pendingDebt (i : uint256) (p : PendingDebt.t) (st : State)
    (id : uint256) :
  isOpen (set_pendingDebt i p st) id
  = if decide (i = id) then PendingDebt.exists_ p else isOpen st id.
Proof.
  unfold isOpen, set_pendingDebt; simpl. unfold insert, fn_insert.
  destruct (decide (i = id)); reflexivity.
Qed.

Lemma ProposalInv_init : ProposalInv init.
Proof. split; simpl; auto. Qed.

Lemma ProposalInv_propose (sender token debtor : address) (amount : uint256)
    (memo : string) (st st' : State) :
  proposeDebt sender token debtor amount memo st = Ok st' ->
  ProposalInv st -> ProposalInv st'.
Proof.
  intros H [Hfo Hfr Hor Hro Hwo].
  apply proposeDebt_effect in H as (_ & _ & ->).
  split; simpl.
  - intros id Hid. change (isOpen (emit ?e ?s) id) with (isOpen s id).
    rewrite isOpen_set_pendingDebt. destruct (decide _) as [E|E]; [lia|].
    apply Hfo. lia.
  - intros id Hid. rewrite resolutions_cons. simpl. apply Hfr. lia.
  - intros id. change (isOpen (emit ?e ?s) id) with (isOpen s id).
    rewrite isOpen_set_pendingDebt, resolutions_cons. simpl.
    destruct (decide _) as [<-|E]; intros Hop.
    + apply Hfr. lia.
    + apply Hor. exact Hop.
  - intros id. rewrite resolutions_cons. simpl. apply Hro.
  - split; [apply Hfr; lia|exact Hwo].
Qed.

Lemma ProposalInv_resolve (e : Event) (id0 : uint256) (st st1 : State) :
  e = DebtConfirmed id0 \/ e = DebtRejected id0 ->
  isOpen st id0 = true ->
  pendingDebts st1 = pendingDebts st ->
  pendingDebtCounter st1 = pendingDebtCounter st ->
  (events st1 = events st
   \/ exists a d c t v m ts, events st1 = DebtAdded a d c t v m ts :: events st) ->
  ProposalInv st ->
  ProposalInv (emit e (set_pendingDebt id0 PendingDebt.zero st1)).
Proof.
  intros He Hopen Hp Hc Hev [Hfo Hfr Hor Hro Hwo].
  assert (Hres : forall id, resolutions id (events st1)
                            = resolutions id (events st)).
  { intros id. destruct Hev as [->|(a & d & c & t & v & m & ts & ->)];
      [reflexivity|]. rewrite resolutions_cons. reflexivity. }
  assert (Hopen1 : forall id, isOpen st1 id = isOpen st id).
  { intros id. unfold isOpen. rewrite Hp. reflexivity. }
  assert (Hnew : forall id,
             resolutions id (e :: events st1)
             = ((if decide (id0 = id) then 1 else 0)
                + resolutions id (events st))%nat).
  { intros id. rewrite resolutions_cons, Hres.
    destruct He as [-> | ->]; simpl;
      destruct (decide (id0 = id)) as [<-|E];
      rewrite ?N.eqb_refl; try reflexivity;
      apply N.eqb_neq in E; rewrite E; reflexivity. }
  assert (Hle : id0 <= pendingDebtCounter st).
  { destruct (N.le_gt_cases id0 (pendingDebtCounter st)) as [H|H];
      [exact H|]. apply Hfo in H. congruence. }
  split; simpl.
  - intros id Hid. change (isOpen (emit ?x ?s) id) with (isOpen s id).
    rewrite isOpen_set_pendingDebt. destruct (decide _); [reflexivity|].
    rewrite Hopen1. apply Hfo. lia.
  - intros id Hid. rewrite Hnew.
    destruct (decide (id0 = id)) as [<-|E]; [lia|]. apply Hfr. lia.
  - intros id. change (isOpen (emit ?x ?s) id) with (isOpen s id).
    rewrite isOpen_set_pendingDebt, Hnew.
    destruct (decide (id0 = id)) as [<-|E]; [discriminate|].
    rewrite Hopen1. apply Hor.
  - intros id. rewrite Hnew. destruct (decide (id0 = id)) as [<-|E].
    + rewrite (Hor _ Hopen). lia.
    + apply Hro.
  - split.
    + destruct He as [-> | ->]; exact I.
    + destruct Hev as [->|(a & d & c & t & v & m & ts & ->)];
        [exact Hwo|]. split; [exact I|exact Hwo].
Qed.

Lemma ProposalInv_frame (st st' : State) :
  pendingDebts st' = pendingDebts st ->
  pendingDebtCounter st' = pendingDebtCounter st ->
  (events st' = events st
   \/ exists e, events st' = e :: events st /\ proposalId e = None /\
                (forall id, isDebtConfirmed id e = false) /\
                (forall id, isDebtRejected id e = false)) ->
  ProposalInv st -> ProposalInv st'.
Proof.
  intros Hp Hc Hev [Hfo Hfr Hor Hro Hwo].
  assert (Hres : forall id, resolutions id (events st')
                            = resolutions id (events st)).
  { intros id. destruct Hev as [->|(e & -> & _ & HC & HR)]; [reflexivity|].
    rewrite resolutions_cons, HC, HR. reflexivity. }
  split; [intros id; unfold isOpen; rewrite Hp, Hc; apply Hfo
         |intros id; rewrite Hc, Hres; apply Hfr
         |intros id; unfold isOpen; rewrite Hp, Hres; apply Hor
         |intros id; rewrite Hres; apply Hro|].
  destruct Hev as [->|(e & -> & Hid & _)]; [exact Hwo|].
  simpl. rewrite Hid. split; [exact I|exact Hwo].
Qed.

Lemma call_ProposalInv (ts : uint256) (c : Call) (st st' : State) :
  call ts c st = Ok st' -> ProposalInv st -> ProposalInv st'.
Proof.
  apply (call_rel (fun s s' => ProposalInv s -> ProposalInv s')).
  - auto.
  - auto.
  - intros; eapply ProposalInv_propose; eassumption.
  - intros sender id t s s' H Hinv.
    apply confirmDebt_effect in H as (Hex & _ & s1 & Hadd & ->).
    apply addDebt_effect in Hadd
      as (_ & _ & _ & _ & _ & _ & Hev & Hp & Hc & _).
    eapply ProposalInv_resolve; eauto 10.
  - intros sender id s s' H Hinv.
    apply rejectDebt_effect in H as (Hex & _ & ->).
    eapply ProposalInv_resolve; eauto.
  - intros discordId w s s' H.
    apply registerUser_effect in H as (_ & ->).
    apply ProposalInv_frame; try reflexivity.
    right. eexists. repeat split; reflexivity.
  - intros sender token creditor s _.
    apply ProposalInv_frame; try reflexivity. left. reflexivity.
  - intros sender token creditor v s.
    apply ProposalInv_frame; try reflexivity.
    right. eexists. repeat split; reflexivity.
Qed.

Lemma run_ProposalInv (txs : list Tx) (st : State) :
  ProposalInv st -> ProposalInv (run txs st).
Proof.
  revert st. induction txs as [|tx txs IH]; intros st Hinv; simpl.
  - exact Hinv.
  - apply IH. unfold transact.
    destruct (call (tx_timestamp tx) (tx_call tx) st) eqn:E; simpl.
    + eapply call_ProposalInv; eassumption.
    + exact Hinv.
Qed.

(** ** At most one resolution per proposal *)

Lemma reachable_ProposalInv (txs : list Tx) : ProposalInv (run txs init).
Proof. apply run_ProposalInv, ProposalInv_init. Qed.

Lemma not_open_NotFound (st : State) (caller id ts : uint256) :
  isOpen st id = false ->
  confirmDebt caller id ts st = Err PendingDoesNotExist /\
  rejectDebt caller id st = Err PendingDoesNotExist.
Proof.
  unfold isOpen, confirmDebt, rejectDebt. intros ->. split; reflexivity.
Qed.

Lemma resolved_not_open (st : State) (id : uint256) :
  ProposalInv st -> (1 <= resolutions id (events st))%nat ->
  isOpen st id = false.
Proof.
  intros Hinv Hres. destruct (isOpen st id) eqn:E; [|reflexivity].
  apply (open_not_resolved _ Hinv) in E. lia.
Qed.

(** C3.  In the log of every state the contract can reach, a proposal id
    has at most one resolution event: [DebtConfirmed] and [DebtRejected]
    together occur at most once for it.  Once a [confirmDebt] or a
    [rejectDebt] of the id has returned, every later [confirmDebt] and
    [rejectDebt] of that id, by any caller and after any further
    transactions, fails with "Pending debt does not exist" (NotFound). *)
Theorem proposal_exclusivity (txs : list Tx) (id : uint256) :
  let st := run txs init in
  (resolutions id (event_log st) <= 1)%nat /\
  forall (sender ts : uint256) (st1 : State),
    confirmDebt sender id ts st = Ok st1 \/ rejectDebt sender id st = Ok st1 ->
    forall (later : list Tx) (caller ts' : uint256),
      let st2 := run later st1 in
      confirmDebt caller id ts' st2 = Err PendingDoesNotExist /\
      rejectDebt caller id st2 = Err PendingDoesNotExist /\
      fails_with (confirmDebt caller id ts' st2) NotFound /\
      fails_with (rejectDebt caller id st2) NotFound.
Proof.
  intros st. pose proof (reachable_ProposalInv txs) as Hinv. fold st in Hinv.
  split.
  - unfold event_log. rewrite resolutions_rev. apply (resolved_once _ Hinv).
  - intros sender ts st1 Hres later caller ts' st2.
    assert (Hinv1 : ProposalInv st1).
    { destruct Hres as [H|H].
      - exact (call_ProposalInv ts (CallConfirmDebt sender id) _ _ H Hinv).
      - exact (call_ProposalInv ts (CallRejectDebt sender id) _ _ H Hinv). }
    assert (Hone : (1 <= resolutions id (events st1))%nat).
    { destruct Hres as [H|H].
      - apply confirmDebt_effect in H as (_ & _ & s1 & _ & ->).
        simpl. rewrite resolutions_cons. simpl. rewrite N.eqb_refl. lia.
      - apply rejectDebt_effect in H as (_ & _ & ->).
        simpl. rewrite resolutions_cons. simpl. rewrite N.eqb_refl. lia. }
    assert (Hclosed : isOpen st2 id = false).
    { apply resolved_not_open.
      - apply run_ProposalInv. exact Hinv1.
      - destruct (run_extends_log later st1) as [newer Hnew].
        fold st2 in Hnew. rewrite Hnew, resolutions_app. lia. }
    destruct (not_open_NotFound st2 caller id ts' Hclosed) as [Hc Hr].
    rewrite Hc, Hr. repeat split.
Qed.

Lemma proposal_exclusivity_witness :
  let st := run [mkTx 1 (CallProposeDebt 2 9 1 50 "rent")] init in
  let st1 := or_unchanged st (confirmDebt 1 1 2 st) in
  confirmDebt 1 1 2 st = Ok st1 /\
  rejectDebt 2 1 (run [mkTx 3 (CallProposeDebt 2 9 1 5 "tea")] st1)
  = Err PendingDoesNotExist.
Proof.
  intros st st1.
  assert (H : confirmDebt 1 1 2 st = Ok st1) by (vm_compute; reflexivity).
  split; [exact H|].
  exact (proj1 (proj2
    (proj2 (proposal_exclusivity [mkTx 1 (CallProposeDebt 2 9 1 50 "rent")] 1)
           1 2 st1 (or_introl H)
           [mkTx 3 (CallProposeDebt 2 9 1 5 "tea")] 2 0))).
Defined.

(** ** Confirmation: authorisation and deferred validation *)

(** C7.  For an open proposal and a caller other than its debtor,
    [confirmDebt] fails with "Only the debtor can confirm the debt"
    (Unauthorized); the transaction leaves the whole state, every ledger
    entry and the proposal included, as it was, and the proposal is still
    open. *)
Theorem unauthorized_confirm (st : State) (id caller ts : uint256) :
  isOpen st id = true ->
  caller <> PendingDebt.debtor (pendingDebts st id) ->
  confirmDebt caller id ts st = Err OnlyDebtorConfirms /\
  fails_with (confirmDebt caller id ts st) Unauthorized /\
  transact st (mkTx ts (CallConfirmDebt caller id)) = st /\
  isOpen (transact st (mkTx ts (CallConfirmDebt caller id))) id = true.
Proof.
  intros Hopen Hne.
  assert (E : confirmDebt caller id ts st = Err OnlyDebtorConfirms).
  { unfold confirmDebt. unfold isOpen in Hopen. rewrite Hopen. simpl.
    apply N.eqb_neq in Hne. rewrite Hne. reflexivity. }
  assert (T : transact st (mkTx ts (CallConfirmDebt caller id)) = st).
  { unfold transact. simpl. rewrite E. reflexivity. }
  rewrite T, E. repeat split. exact Hopen.
Qed.

Lemma unauthorized_confirm_witness :
  let st := run [mkTx 1 (CallProposeDebt 2 9 1 50 "rent")] init in
  (isOpen st 1 = true /\ 2 <> PendingDebt.debtor (pendingDebts st 1)) /\
  confirmDebt 2 1 5 st = Err OnlyDebtorConfirms.
Proof.
  intros st.
  assert (Hopen : isOpen st 1 = true) by reflexivity.
  assert (Hne : 2 <> PendingDebt.debtor (pendingDebts st 1))
    by (vm_compute; discriminate).
  split; [split; assumption|].
  exact (proj1 (unauthorized_confirm st 1 2 5 Hopen Hne)).
Defined.

(** C8.  [proposeDebt] does not look at the amount: with distinct parties
    (and a proposal counter below [2^256 - 1]) a proposal of amount 0
    returns, takes the next id and is stored open.  Every [confirmDebt]
    of it then fails: by its debtor with "Debt amount must be positive"
    (InvalidOperands), and the transaction leaves the state, so the
    ledger and the open proposal, as it was; [rejectDebt] by the debtor
    or by the creditor returns and closes it. *)
Theorem zero_amount_proposal (st : State) (creditor token debtor : address)
    (memo : string) :
  debtor <> creditor ->
  pendingDebtCounter st < MAX_UINT256 ->
  exists st1,
    proposeDebt creditor token debtor 0 memo st = Ok st1 /\
    let id := pendingDebtCounter st1 in
    id = pendingDebtCounter st + 1 /\
    pendingDebts st1 id
    = PendingDebt.Build creditor debtor token 0 memo true /\
    (forall t d c, debts st1 t d c = debts st t d c) /\
    (forall caller ts, exists r, confirmDebt caller id ts st1 = Err r) /\
    (forall ts,
        confirmDebt debtor id ts st1 = Err AmountNotPositive /\
        fails_with (confirmDebt debtor id ts st1) InvalidOperands /\
        transact st1 (mkTx ts (CallConfirmDebt debtor id)) = st1) /\
    (forall caller, caller = debtor \/ caller = creditor ->
        exists st2, rejectDebt caller id st1 = Ok st2 /\
                    isOpen st2 id = false /\
                    forall t d c, debts st2 t d c = debts st t d c).
Proof.
  intros Hne Hcnt.
  assert (Hp : proposeDebt creditor token debtor 0 memo st
               = Ok (emit (DebtProposed (pendingDebtCounter st + 1) creditor
                             debtor token 0 memo)
                       (set_pendingDebt (pendingDebtCounter st + 1)
                          (PendingDebt.Build creditor debtor token 0 memo true)
                          (set_pendingDebtCounter (pendingDebtCounter st + 1)
                             st)))).
  { unfold proposeDebt, checked_add.
    replace (negb (debtor =? creditor)) with true
      by (symmetry; apply negb_true_iff, N.eqb_neq; exact Hne).
    replace (_ <=? MAX_UINT256) with true
      by (symmetry; apply N.leb_le; lia).
    reflexivity. }
  eexists. split; [exact Hp|]. cbn.
  set (id := pendingDebtCounter st + 1).
  assert (Hstored : forall (f : uint256 -> PendingDebt.t) p,
             (<[id := p]> f) id = p) by (intros; apply fn_lookup_insert).
  assert (Hconf : forall ts s,
    confirmDebt debtor id ts
      (emit (DebtProposed id creditor debtor token 0 memo)
         (set_pendingDebt id
            (PendingDebt.Build creditor debtor token 0 memo true) s))
    = Err AmountNotPositive).
  { intros ts s. unfold confirmDebt. cbn. rewrite Hstored. cbn.
    rewrite N.eqb_refl. cbn. unfold addDebt.
    replace (negb (debtor =? creditor)) with true
      by (symmetry; apply negb_true_iff, N.eqb_neq; exact Hne).
    reflexivity. }
  repeat split.
  - apply Hstored.
  - intros caller ts. destruct (N.eq_dec caller debtor) as [->|Hc].
    + eexists. apply Hconf.
    + exists OnlyDebtorConfirms. unfold confirmDebt. cbn. rewrite Hstored.
      cbn. apply N.eqb_neq in Hc. rewrite Hc. reflexivity.
  - apply Hconf.
  - rewrite Hconf. reflexivity.
  - unfold transact. cbn [tx_timestamp tx_call call]. rewrite Hconf.
    reflexivity.
  - intros caller Hcaller. eexists. split.
    + unfold rejectDebt. cbn. rewrite Hstored. cbn.
      replace ((caller =? debtor) || (caller =? creditor)) with true.
      * reflexivity.
      * symmetry. apply orb_true_iff. rewrite !N.eqb_eq. exact Hcaller.
    + split; [|reflexivity].
      unfold isOpen. cbn. rewrite Hstored. reflexivity.
Qed.

Lemma zero_amount_proposal_witness :
  ((1 : address) <> 2 /\ pendingDebtCounter init < MAX_UINT256) /\
  exists st1, proposeDebt 2 9 1 0 "void" init = Ok st1 /\
              confirmDebt 1 1 0 st1 = Err AmountNotPositive.
Proof.
  assert (Hne : (1 : address) <> 2) by discriminate.
  assert (Hcnt : pendingDebtCounter init < MAX_UINT256) by reflexivity.
  split; [split; assumption|].
  destruct (zero_amount_proposal init 2 9 1 "void" Hne Hcnt)
    as (st1 & Hp & Hid & _ & _ & _ & Hconf & _).
  exists st1. split; [exact Hp|].
  simpl in Hid. cbv zeta in Hconf. rewrite Hid in Hconf.
  exact (proj1 (Hconf 0)).
Defined.

(** ** Propose then confirm, propose then reject *)

(** [addDebt] reads the ledger entries and the action counter only. *)
Lemma addDebt_frame (token d c : address) (amount : uint256) (memo : string)
    (ts : uint256) (s s' : State) :
  debts s' = debts s -> debtActionCounter s' = debtActionCounter s ->
  match addDebt token d c amount memo ts s,
        addDebt token d c amount memo ts s' with
  | Ok r, Ok r' => debts r' = debts r
  | Err e, Err e' => e = e'
  | _, _ => False
  end.
Proof.
  destruct s, s'; simpl. intros -> ->.
  unfold addDebt, checked_sub, checked_add, set_debt, require, bind; simpl.
  destruct (negb (d =? c)), (0 <? amount); simpl; try reflexivity.
  destruct (amount <=? debts0 token c d); simpl;
    [|destruct (0 <? debts0 token c d); simpl];
  repeat match goal with
  | |- context [if ?b then _ else _] => destruct b; simpl
  end; reflexivity.
Qed.

(** C6.  From any state, for a proposal that [proposeDebt] accepts: a
    [confirmDebt] by the debtor that returns leaves exactly the ledger
    entries that [addDebt] with the same asset, debtor, creditor, amount
    and memo leaves when called on the starting state (and returns when
    that call returns); a [rejectDebt] by the debtor or the creditor
    returns and leaves every ledger entry as it was before the proposal. *)
Theorem round_trip (st st1 : State) (creditor token debtor : address)
    (amount : uint256) (memo : string) (ts : uint256) :
  proposeDebt creditor token debtor amount memo st = Ok st1 ->
  let id := pendingDebtCounter st1 in
  (forall st2,
      confirmDebt debtor id ts st1 = Ok st2 ->
      exists st3,
        addDebt token debtor creditor amount memo ts st = Ok st3 /\
        debts st2 = debts st3) /\
  (forall st3,
      addDebt token debtor creditor amount memo ts st = Ok st3 ->
      exists st2,
        confirmDebt debtor id ts st1 = Ok st2 /\ debts st2 = debts st3) /\
  (forall caller, caller = debtor \/ caller = creditor ->
      exists st2, rejectDebt caller id st1 = Ok st2 /\ debts st2 = debts st).
Proof.
  intros Hp. apply proposeDebt_effect in Hp as (_ & _ & ->). cbn.
  set (id := pendingDebtCounter st + 1).
  set (p := PendingDebt.Build creditor debtor token amount memo true).
  set (st1 := emit _ _).
  assert (Hpending : pendingDebts st1 id = p)
    by (unfold st1, p; cbn; apply fn_lookup_insert).
  pose proof (addDebt_frame token debtor creditor amount memo ts st st1
                eq_refl eq_refl) as Hframe.
  assert (Hconfirm : confirmDebt debtor id ts st1
                     = bind (addDebt token debtor creditor amount memo ts st1)
                         (fun s => Ok (emit (DebtConfirmed id)
                                   (set_pendingDebt id PendingDebt.zero s)))).
  { unfold confirmDebt. rewrite Hpending. unfold p. cbn.
    rewrite N.eqb_refl. reflexivity. }
  split; [|split].
  - intros st2 H. rewrite Hconfirm in H. steps H. injection H as <-.
    rewrite Hstep in Hframe.
    destruct (addDebt token debtor creditor amount memo ts st) as [st3|r];
      [|contradiction].
    exists st3. split; [reflexivity|]. cbn. exact Hframe.
  - intros st3 H. rewrite H in Hframe. rewrite Hconfirm.
    destruct (addDebt token debtor creditor amount memo ts st1) as [s|r];
      [|contradiction].
    eexists. split; [reflexivity|]. cbn. exact Hframe.
  - intros caller Hcaller. eexists. split.
    + unfold rejectDebt. rewrite Hpending. unfold p. cbn.
      replace ((caller =? debtor) || (caller =? creditor)) with true.
      * reflexivity.
      * symmetry. apply orb_true_iff. rewrite !N.eqb_eq. exact Hcaller.
    + reflexivity.
Qed.

Lemma round_trip_witness :
  let st1 := or_unchanged init (proposeDebt 2 9 1 50 "rent" init) in
  proposeDebt 2 9 1 50 "rent" init = Ok st1 /\
  exists st2, rejectDebt 1 (pendingDebtCounter st1) st1 = Ok st2 /\
              debts st2 = debts init.
Proof.
  intros st1.
  assert (Hp : proposeDebt 2 9 1 50 "rent" init = Ok st1)
    by (vm_compute; reflexivity).
  split; [exact Hp|].
  exact (proj2 (proj2 (round_trip init st1 2 9 1 50 "rent" 0 Hp))
               1 (or_introl eq_refl)).
Defined.

(** ** Settlement *)

Lemma settle_nothing (ts : uint256) (sender token creditor : address)
    (transfer : Transfer) (st : State) :
  debts st token sender creditor = 0 ->
  call ts (CallSettleDebt sender token creditor transfer) st
  = Err NoDebtToSettle.
Proof. simpl. unfold settleDebt. intros ->. reflexivity. Qed.

(** The entry is written to zero first; the token is called on the state
    that has the zero. *)
Lemma settle_zeroes_first (ts : uint256) (sender token creditor : address)
    (transfer : Transfer) (st : State) :
  0 < debts st token sender creditor ->
  call ts (CallSettleDebt sender token creditor transfer) st
  = (let* returned :=
       transferFrom ts transfer (set_debt token sender creditor 0 st) in
     Ok (emit (DebtSettled sender creditor token
                           (debts st token sender creditor))
              (snd returned))).
Proof.
  intros Hpos. simpl. unfold settleDebt.
  apply N.ltb_lt in Hpos. rewrite Hpos. reflexivity.
Qed.

(** A second [settleDebt] for the same entry, made by the token while the
    first one waits for [transferFrom], finds nothing to settle. *)
Lemma settle_reentered (ts : uint256) (sender token creditor : address)
    (inner rest : Transfer) (st : State) :
  0 < debts st token sender creditor ->
  call ts (CallSettleDebt sender token creditor inner)
       (set_debt token sender creditor 0 st) = Err NoDebtToSettle /\
  call ts (CallSettleDebt sender token creditor
             (Reenters (CallSettleDebt sender token creditor inner) rest)) st
  = call ts (CallSettleDebt sender token creditor rest) st.
Proof.
  intros Hpos.
  assert (E : call ts (CallSettleDebt sender token creditor inner)
                (set_debt token sender creditor 0 st) = Err NoDebtToSettle).
  { apply settle_nothing. apply debts_set_debt_eq. }
  split; [exact E|].
  rewrite !settle_zeroes_first by exact Hpos.
  cbn [transferFrom]. rewrite E. reflexivity.
Qed.

(** A [transferFrom] that reverts takes the whole call with it. *)
Lemma settle_transfer_reverts (ts : uint256) (sender token creditor : address)
    (st : State) :
  0 < debts st token sender creditor ->
  call ts (CallSettleDebt sender token creditor Reverts) st
  = Err ExternalCallReverted /\
  transact st (mkTx ts (CallSettleDebt sender token creditor Reverts)) = st.
Proof.
  intros Hpos.
  assert (E : call ts (CallSettleDebt sender token creditor Reverts) st
              = Err ExternalCallReverted)
    by (rewrite settle_zeroes_first by exact Hpos; reflexivity).
  split; [exact E|]. unfold transact.
  cbn [tx_timestamp tx_call]. rewrite E. reflexivity.
Qed.

(** What [settleDebt] does when the token returns without calling back,
    whatever [bool] it returns. *)
Lemma settle_transfer_returns (ts : uint256) (sender token creditor : address)
    (success : bool) (st : State) :
  0 < debts st token sender creditor ->
  call ts (CallSettleDebt sender token creditor (Returns success)) st
  = Ok (emit (DebtSettled sender creditor token
                          (debts st token sender creditor))
             (set_debt token sender creditor 0 st)).
Proof.
  intros Hpos. rewrite settle_zeroes_first by exact Hpos. reflexivity.
Qed.

(** C4 (the code at the failing input).  Account 1 owes account 2 the
    amount 50 of asset 9 and settles; the token's [transferFrom] returns
    [false]: the transfer failed.  [settleDebt] returns all the same, the
    entry is 0 and not 50, and a [DebtSettled] event for 50 is in the
    log. *)
Theorem settle_failed_transfer_not_rolled_back :
  debts owing 9 1 2 = 50 /\
  exists st',
    call 3 (CallSettleDebt 1 9 2 (Returns false)) owing = Ok st' /\
    transact owing (mkTx 3 (CallSettleDebt 1 9 2 (Returns false))) = st' /\
    debts st' 9 1 2 = 0 /\
    events st' = DebtSettled 1 2 9 50 :: events owing.
Proof.
  split; [reflexivity|].
  eexists. split; [|split; [|split]].
  - apply settle_transfer_returns. reflexivity.
  - unfold transact. cbn [tx_timestamp tx_call].
    rewrite settle_transfer_returns by reflexivity. reflexivity.
  - cbn. apply debts_set_debt_eq.
  - reflexivity.
Qed.

(** C5 (the code at the failing input).  Whenever the entry a caller
    settles is positive and the token's [transferFrom] returns [false],
    [settleDebt] does not fail: it returns with the entry at zero and a
    [DebtSettled] event for the full amount, as it does when the token
    returns [true]. *)
Theorem settle_succeeds_on_failed_transfer (ts : uint256)
    (sender token creditor : address) (st : State) :
  0 < debts st token sender creditor ->
  exists st',
    call ts (CallSettleDebt sender token creditor (Returns false)) st = Ok st' /\
    call ts (CallSettleDebt sender token creditor (Returns true)) st = Ok st' /\
    debts st' token sender creditor = 0 /\
    events st' =
      DebtSettled sender creditor token (debts st token sender creditor)
      :: events st.
Proof.
  intros Hpos. eexists. split; [|split; [|split]].
  - apply settle_transfer_returns. exact Hpos.
  - apply settle_transfer_returns. exact Hpos.
  - cbn. apply debts_set_debt_eq.
  - reflexivity.
Qed.

Lemma settle_succeeds_on_failed_transfer_witness :
  0 < debts owing 9 1 2 /\
  exists st', call 3 (CallSettleDebt 1 9 2 (Returns false)) owing = Ok st' /\
              debts st' 9 1 2 = 0.
Proof.
  assert (Hpos : 0 < debts owing 9 1 2) by reflexivity.
  split; [exact Hpos|].
  destruct (settle_succeeds_on_failed_transfer 3 1 9 2 owing Hpos)
    as (st' & Hf & _ & Hz & _).
  exists st'. split; [exact Hf|exact Hz].
Defined.

(** ** The registry *)

Lemma RegistryInv_init : RegistryInv init.
Proof.
  split; unfold registered_id, registered_wallet; simpl; intros; congruence.
Qed.

Lemma RegistryInv_frame (st st' : State) :
  discordToWallet st' = discordToWallet st ->
  walletToDiscord st' = walletToDiscord st ->
  RegistryInv st -> RegistryInv st'.
Proof.
  intros Hd Hw [H1 H2].
  split; unfold registered_id, registered_wallet in *; rewrite Hd, Hw; auto.
Qed.

Lemma RegistryInv_register (discordId : string) (w : address)
    (st st' : State) :
  registerUser discordId w st = Ok st' -> RegistryInv st -> RegistryInv st'.
Proof.
  intros H [H1 H2].
  apply registerUser_effect in H as ((Hid & Hw & Hfree & Hwfree) & ->).
  split; unfold registered_id, registered_wallet in *; cbn;
    unfold insert, fn_insert.
  - intros d' Hreg. destruct (decide (discordId = d')) as [<-|Hd].
    + split; [exact Hid|]. destruct (decide (w = w)); congruence.
    + destruct (H1 d' Hreg) as [Hne Hback]. split; [exact Hne|].
      destruct (decide (w = discordToWallet st d')) as [E|E];
        [|exact Hback].
      rewrite <- E in Hback. congruence.
  - intros w' Hreg. destruct (decide (w = w')) as [<-|Hd].
    + split; [exact Hw|]. destruct (decide (discordId = discordId));
        congruence.
    + destruct (H2 w' Hreg) as [Hne Hback]. split; [exact Hne|].
      destruct (decide (discordId = walletToDiscord st w')) as [E|E];
        [|exact Hback].
      rewrite <- E in Hback. congruence.
Qed.

Lemma call_RegistryInv (ts : uint256) (c : Call) (st st' : State) :
  call ts c st = Ok st' -> RegistryInv st -> RegistryInv st'.
Proof.
  apply (call_rel (fun s s' => RegistryInv s -> RegistryInv s')).
  - auto.
  - auto.
  - intros sender token debtor amount memo s s' H.
    apply proposeDebt_effect in H as (_ & _ & ->).
    apply RegistryInv_frame; reflexivity.
  - intros sender id t s s' H.
    apply confirmDebt_effect in H as (_ & _ & s1 & Hadd & ->).
    apply addDebt_effect in Hadd
      as (_ & _ & _ & _ & _ & _ & _ & _ & _ & Hd & Hw).
    apply RegistryInv_frame; assumption.
  - intros sender id s s' H.
    apply rejectDebt_effect in H as (_ & _ & ->).
    apply RegistryInv_frame; reflexivity.
  - intros; eapply RegistryInv_register; eassumption.
  - intros. eapply RegistryInv_frame; [| |eassumption]; reflexivity.
  - intros. eapply RegistryInv_frame; [| |eassumption]; reflexivity.
Qed.

Lemma run_RegistryInv (txs : list Tx) (st : State) :
  RegistryInv st -> RegistryInv (run txs st).
Proof.
  revert st. induction txs as [|tx txs IH]; intros st Hinv; simpl.
  - exact Hinv.
  - apply IH. unfold transact.
    destruct (call (tx_timestamp tx) (tx_call tx) st) eqn:E; simpl.
    + eapply call_RegistryInv; eassumption.
    + exact Hinv.
Qed.

Lemma keeps_registrations_refl (st : State) : keeps_registrations st st.
Proof. split; reflexivity. Qed.

Lemma keeps_registrations_trans (s1 s2 s3 : State) :
  keeps_registrations s1 s2 -> keeps_registrations s2 s3 ->
  keeps_registrations s1 s3.
Proof.
  unfold keeps_registrations, registered_id, registered_wallet.
  intros [Hd1 Hw1] [Hd2 Hw2]. split.
  - intros d Hreg. rewrite Hd2, Hd1; auto. rewrite Hd1; auto.
  - intros w Hreg. rewrite Hw2, Hw1; auto. rewrite Hw1; auto.
Qed.

Lemma keeps_registrations_frame (st st' : State) :
  discordToWallet st' = discordToWallet st ->
  walletToDiscord st' = walletToDiscord st ->
  keeps_registrations st st'.
Proof. intros Hd Hw. split; intros; rewrite ?Hd, ?Hw; reflexivity. Qed.

Lemma run_keeps_registrations (txs : list Tx) (st : State) :
  keeps_registrations st (run txs st).
Proof.
  apply run_rel.
  - apply keeps_registrations_refl.
  - apply keeps_registrations_trans.
  - intros sender token debtor amount memo s s' H.
    apply proposeDebt_effect in H as (_ & _ & ->).
    apply keeps_registrations_frame; reflexivity.
  - intros sender id t s s' H.
    apply confirmDebt_effect in H as (_ & _ & s1 & Hadd & ->).
    apply addDebt_effect in Hadd
      as (_ & _ & _ & _ & _ & _ & _ & _ & _ & Hd & Hw).
    apply keeps_registrations_frame; assumption.
  - intros sender id s s' H.
    apply rejectDebt_effect in H as (_ & _ & ->).
    apply keeps_registrations_frame; reflexivity.
  - intros discordId w s s' H.
    apply registerUser_effect in H as ((_ & _ & Hfree & Hwfree) & ->).
    split; unfold registered_id, registered_wallet; cbn;
      unfold insert, fn_insert.
    + intros d Hreg. destruct (decide (discordId = d)) as [<-|_];
        [contradiction|reflexivity].
    + intros w' Hreg. destruct (decide (w = w')) as [<-|_];
        [contradiction|reflexivity].
  - intros. apply keeps_registrations_frame; reflexivity.
  - intros. apply keeps_registrations_frame; reflexivity.
Qed.

(** C10.  [registerUser(discordId, walletAddress)] returns exactly when
    the id is not empty, the wallet is not the zero address, the id maps
    to no wallet yet and the wallet maps to no id yet.  In every state the
    contract can reach the two mappings are inverse to each other on what
    is registered, so two registered ids never share a wallet and two
    registered wallets never share an id; and whatever transactions
    follow, every registration is still there with the value it had. *)
Theorem registration_one_to_one :
  (forall st discordId w,
      (exists st', registerUser discordId w st = Ok st') <->
      discordId <> "" /\ w <> 0 /\
      discordToWallet st discordId = 0 /\ walletToDiscord st w = "") /\
  (forall txs : list Tx,
      let st := run txs init in
      (forall d, registered_id st d ->
         walletToDiscord st (discordToWallet st d) = d) /\
      (forall w, registered_wallet st w ->
         discordToWallet st (walletToDiscord st w) = w) /\
      (forall d1 d2, registered_id st d1 -> registered_id st d2 ->
         discordToWallet st d1 = discordToWallet st d2 -> d1 = d2) /\
      (forall w1 w2, registered_wallet st w1 -> registered_wallet st w2 ->
         walletToDiscord st w1 = walletToDiscord st w2 -> w1 = w2) /\
      (forall later : list Tx,
         let st' := run later st in
         (forall d, registered_id st d ->
            discordToWallet st' d = discordToWallet st d) /\
         (forall w, registered_wallet st w ->
            walletToDiscord st' w = walletToDiscord st w))).
Proof.
  split.
  - intros st discordId w. split.
    + intros [st' H]. apply registerUser_effect in H as [H _]. exact H.
    + intros H. eexists. apply registerUser_effect. split; [exact H|].
      reflexivity.
  - intros txs st.
    assert (Hinv : RegistryInv st) by apply run_RegistryInv, RegistryInv_init.
    destruct Hinv as [H1 H2].
    split; [|split; [|split; [|split]]].
    + intros d Hreg. apply H1, Hreg.
    + intros w Hreg. apply H2, Hreg.
    + intros d1 d2 Hr1 Hr2 E.
      rewrite <- (proj2 (H1 d1 Hr1)), <- (proj2 (H1 d2 Hr2)), E. reflexivity.
    + intros w1 w2 Hr1 Hr2 E.
      rewrite <- (proj2 (H2 w1 Hr1)), <- (proj2 (H2 w2 Hr2)), E. reflexivity.
    + intros later. apply run_keeps_registrations.
Qed.

Lemma registration_one_to_one_witness :
  let st := run [mkTx 1 (CallRegisterUser "ann" 7)] init in
  discordToWallet st "ann" = 7 /\
  discordToWallet (run [mkTx 2 (CallRegisterUser "ann" 8);
                        mkTx 3 (CallRegisterUser "bob" 7)] st) "ann" = 7.
Proof.
  intros st.
  assert (Hreg : registered_id st "ann") by (vm_compute; discriminate).
  split; [reflexivity|].
  pose proof (proj1 (proj2 (proj2 (proj2 (proj2
    (proj2 registration_one_to_one [mkTx 1 (CallRegisterUser "ann" 7)]))))
    [mkTx 2 (CallRegisterUser "ann" 8); mkTx 3 (CallRegisterUser "bob" 7)])
    "ann" Hreg) as H.
  exact H.
Defined.

(** ** The pending balance the bot shows *)

Lemma total_app (f : Event -> N) (l1 l2 : list Event) :
  total f (l1 ++ l2) = total f l1 + total f l2.
Proof.
  induction l1 as [|e l1 IH]; simpl; [reflexivity|].
  change (total f (l1 ++ l2)) with (total f (l1 ++ l2)%list) in IH.
  unfold total in *. simpl. rewrite IH. lia.
Qed.

Lemma total_ext (f g : Event -> N) (l : list Event) :
  (forall e, f e = g e) -> total f l = total g l.
Proof.
  intros H. induction l as [|e l IH]; simpl; [reflexivity|].
  rewrite H, IH. reflexivity.
Qed.

Lemma total_filter (p : Event -> bool) (f : Event -> N) (l : list Event) :
  total f (List.filter p l) = total (fun e => if p e then f e else 0) l.
Proof.
  induction l as [|e l IH]; simpl; [reflexivity|].
  destruct (p e); simpl; rewrite IH; reflexivity.
Qed.

(** The accumulating loop adds, to each total, the amounts of its own
    direction. *)
Lemma addPending_fold (user1 user2 : address) (l : list Event) (acc : N * N) :
  fold_left (addPending user1 user2) l acc
  = (fst acc + total (fun e => fst (addPending user1 user2 (0, 0) e)) l,
     snd acc + total (fun e => snd (addPending user1 user2 (0, 0) e)) l).
Proof.
  revert acc. induction l as [|e l IH]; intros [a b]; simpl.
  - f_equal; lia.
  - rewrite IH. destruct e; simpl; try (f_equal; lia).
    destruct ((debtor =? user1) && (creditor =? user2)); simpl;
      [f_equal; lia|].
    destruct ((debtor =? user2) && (creditor =? user1)); simpl;
      f_equal; lia.
Qed.

Lemma unresolvedEvent_resolutions (log : list Event) (e : Event) :
  unresolvedEvent log e
  = match proposalId e with
    | Some id => (resolutions id log =? 0)%nat
    | None => false
    end.
Proof.
  destruct e; simpl; try reflexivity.
  rewrite isDebtResolved_resolutions. apply negb_involutive.
Qed.

Lemma unresolvedEvent_rev (log : list Event) (e : Event) :
  unresolvedEvent (rev log) e = unresolvedEvent log e.
Proof.
  rewrite !unresolvedEvent_resolutions.
  destruct (proposalId e); [rewrite resolutions_rev|]; reflexivity.
Qed.

Lemma filter_both (p q : Event -> bool) (l : list Event) :
  List.filter p (List.filter q l) = List.filter (fun e => p e && q e) l.
Proof.
  induction l as [|e l IH]; simpl; [reflexivity|].
  destruct (q e) eqn:Q; simpl; rewrite ?andb_true_r, ?andb_false_r;
    [destruct (p e)|]; rewrite IH; reflexivity.
Qed.

(** On a log in which no proposal is resolved before it is proposed, the
    replay keeps the [DebtProposed] events without a resolution. *)
Lemma replay_open_unresolved (log : list Event) :
  well_ordered log ->
  spec_replay_open (rev log)
  = List.filter (unresolvedEvent log) (List.filter isDebtProposed (rev log)).
Proof.
  induction log as [|e older IH]; [reflexivity|].
  intros [Hfirst Hwo]. specialize (IH Hwo).
  unfold spec_replay_open in *. simpl rev.
  rewrite fold_left_app, IH. simpl fold_left.
  rewrite !List.filter_app. simpl.
  destruct e as [a d c t v m ts|d c t v|id c d t v m|id|id|di w]; simpl.
  - rewrite app_nil_r. apply List.filter_ext. intros e'.
    rewrite !unresolvedEvent_resolutions.
    destruct (proposalId e'); [rewrite resolutions_cons|]; reflexivity.
  - rewrite app_nil_r. apply List.filter_ext. intros e'.
    rewrite !unresolvedEvent_resolutions.
    destruct (proposalId e'); [rewrite resolutions_cons|]; reflexivity.
  - simpl in Hfirst. rewrite isDebtResolved_resolutions, resolutions_cons.
    simpl. rewrite Hfirst. simpl. reflexivity.
  - rewrite app_nil_r, filter_both. apply List.filter_ext. intros e'.
    rewrite !unresolvedEvent_resolutions. unfold hasId.
    destruct (proposalId e') as [i|]; [|reflexivity].
    rewrite resolutions_cons. simpl. rewrite (N.eqb_sym i id).
    destruct (id =? i); simpl; [reflexivity|].
    reflexivity.
  - rewrite app_nil_r, filter_both. apply List.filter_ext. intros e'.
    rewrite !unresolvedEvent_resolutions. unfold hasId.
    destruct (proposalId e') as [i|]; [|reflexivity].
    rewrite resolutions_cons. simpl. rewrite (N.eqb_sym i id).
    destruct (id =? i); simpl; [reflexivity|].
    reflexivity.
  - rewrite app_nil_r. apply List.filter_ext. intros e'.
    rewrite !unresolvedEvent_resolutions.
    destruct (proposalId e'); [rewrite resolutions_cons|]; reflexivity.
Qed.

Lemma pending_totals (log : list Event) (token user1 user2 : address) :
  let pending :=
    fold_left (addPending user1 user2)
      (List.filter (unresolvedEvent log)
         (List.filter (relevantEvent token user1 user2)
            (List.filter isDebtProposed log))) (0, 0) in
  fst pending = total (open_contribution log token user1 user2) log /\
  (user1 <> user2 ->
   snd pending = total (open_contribution log token user2 user1) log).
Proof.
  cbv zeta. rewrite addPending_fold. cbn [fst snd].
  rewrite !total_filter, !N.add_0_l. split; [|intros Hne];
    apply total_ext; intros e; unfold open_contribution;
    destruct (unresolvedEvent log e); try reflexivity;
    destruct e; simpl; try reflexivity;
    destruct (N.eqb_spec debtor user1), (N.eqb_spec creditor user2),
      (N.eqb_spec token0 token), (N.eqb_spec creditor user1),
      (N.eqb_spec debtor user2); simpl; try reflexivity; congruence.
Qed.

Lemma replay_pending_open (log : list Event) (asset debtor creditor : address) :
  well_ordered log ->
  spec_replay_pending (rev log) asset debtor creditor
  = total (open_contribution (rev log) asset debtor creditor) (rev log).
Proof.
  intros Hwo. unfold spec_replay_pending.
  rewrite (replay_open_unresolved log Hwo), !total_filter.
  apply total_ext. intros e. unfold open_contribution.
  rewrite unresolvedEvent_rev.
  destruct (unresolvedEvent log e) eqn:U; destruct e; simpl;
    try reflexivity; discriminate.
Qed.

(** The figures of the [balance] command in every state the contract can
    reach, for the wallets [user1] and [user2] and a token: the confirmed
    figures are the current ledger entries (user1, user2) and (user2,
    user1); [pendingOwed] adds up the amounts of the [DebtProposed] events
    on that token with debtor [user1] and creditor [user2] for whose id
    the log has neither a [DebtConfirmed] nor a [DebtRejected] event, and
    [pendingOwing] does the same for debtor [user2] and creditor [user1].
    Both are what a replay of the whole log in order yields, which opens
    a proposal at its [DebtProposed] event and closes it at its
    [DebtConfirmed] or [DebtRejected] event. *)
Lemma pending_balance_reconstruction (txs : list Tx)
    (token user1 user2 : address) :
  let st := run txs init in
  let log := event_log st in
  let b := balance st token user1 user2 in
  debtOwed b = debts st token user1 user2 /\
  debtOwing b = debts st token user2 user1 /\
  pendingOwed b = total (open_contribution log token user1 user2) log /\
  pendingOwed b = spec_replay_pending log token user1 user2 /\
  (user1 <> user2 ->
   pendingOwing b = total (open_contribution log token user2 user1) log /\
   pendingOwing b = spec_replay_pending log token user2 user1).
Proof.
  intros st log b.
  pose proof (log_well_ordered _ (reachable_ProposalInv txs)) as Hwo.
  fold st in Hwo.
  destruct (pending_totals log token user1 user2) as [Howed Howing].
  split; [reflexivity|]. split; [reflexivity|].
  split; [exact Howed|]. split.
  - unfold b, balance. cbn [pendingOwed]. fold log. rewrite Howed.
    unfold log, event_log. symmetry. apply replay_pending_open, Hwo.
  - intros Hne. split; [exact (Howing Hne)|].
    unfold b, balance. cbn [pendingOwing]. fold log. rewrite (Howing Hne).
    unfold log, event_log. symmetry. apply replay_pending_open, Hwo.
Qed.

Lemma pending_balance_example :
  let txs := [mkTx 1 (CallProposeDebt 2 9 1 50 "rent");
              mkTx 2 (CallConfirmDebt 1 1);
              mkTx 3 (CallProposeDebt 1 9 2 7 "taxi");
              mkTx 4 (CallProposeDebt 2 9 1 3 "food");
              mkTx 5 (CallProposeDebt 2 9 1 4 "trip");
              mkTx 6 (CallRejectDebt 1 3)] in
  (1 : address) <> 2 /\
  balance (run txs init) 9 1 2 = mkBalance 50 0 4 7 /\
  spec_replay_pending (event_log (run txs init)) 9 2 1 = 7.
Proof.
  intros txs.
  assert (Hne : (1 : address) <> 2) by discriminate.
  split; [exact Hne|]. split; [reflexivity|].
  destruct (pending_balance_reconstruction txs 9 1 2)
    as (_ & _ & _ & _ & Howing).
  destruct (Howing Hne) as [_ H]. rewrite <- H. reflexivity.
Qed.

(** C9 (the code at the failing input).  Account 1 has proposed that
    account 2 owes it 7 of asset 9 and asks for its balance with account
    2.  The sums are those of the log: the open proposal, in which account
    2 is the debtor, is counted once, in [pendingOwing].  The reply prints
    it as "You owe them (pending): 7" and prints 0 for what they owe;
    once account 2 has confirmed, the ledger entry says that account 2
    owes account 1 the 7, and the reply prints "You owe them: 7". *)
Theorem balance_reports_opposite_direction :
  event_log proposed = [DebtProposed 1 1 2 9 7 "taxi"] /\
  spec_replay_pending (event_log proposed) 9 2 1 = 7 /\
  spec_replay_pending (event_log proposed) 9 1 2 = 0 /\
  balanceMessage (balance proposed 9 1 2)
  = [("You owe them", 0); ("They owe you", 0);
     ("You owe them (pending)", 7); ("They owe you (pending)", 0)] /\
  debts agreed 9 2 1 = 7 /\ debts agreed 9 1 2 = 0 /\
  balanceMessage (balance agreed 9 1 2)
  = [("You owe them", 7); ("They owe you", 0);
     ("You owe them (pending)", 0); ("They owe you (pending)", 0)].
Proof. repeat split; vm_compute; reflexivity. Qed.

(** * Further properties of the contract *)

(** ** The netting invariant on every reachable ledger *)

Lemma NettingInv_addDebt (token d c : address) (amount : uint256)
    (memo : string) (ts : uint256) (st st' : State) :
  addDebt token d c amount memo ts st = Ok st' ->
  NettingInv st -> NettingInv st'.
Proof.
  intros H Hinv asset A B.
  apply addDebt_effect in H as (Hne & Hpos & Hcd & Hdc & Hother & _).
  destruct (Hinv token d c) as [Hz|Hz].
  - (* the debtor owed nothing *)
    destruct (N.leb_spec amount (debts st token c d)).
    + assert (Hdc0 : debts st' token d c = 0) by congruence.
      destruct (decide (asset = token /\ A = d /\ B = c)) as [(-> & -> & ->)|N1];
        [left; exact Hdc0|].
      destruct (decide (asset = token /\ A = c /\ B = d)) as [(-> & -> & ->)|N2];
        [right; exact Hdc0|].
      rewrite !Hother by tauto. apply Hinv.
    + destruct (decide (asset = token /\ A = d /\ B = c)) as [(-> & -> & ->)|N1];
        [right; exact Hcd|].
      destruct (decide (asset = token /\ A = c /\ B = d)) as [(-> & -> & ->)|N2];
        [left; exact Hcd|].
      rewrite !Hother by tauto. apply Hinv.
  - (* the creditor owed nothing: the new debt is recorded in full *)
    rewrite Hz in Hcd, Hdc.
    replace (amount <=? 0) with false in Hcd, Hdc
      by (symmetry; apply N.leb_gt; exact Hpos).
    destruct (decide (asset = token /\ A = d /\ B = c)) as [(-> & -> & ->)|N1];
      [right; exact Hcd|].
    destruct (decide (asset = token /\ A = c /\ B = d)) as [(-> & -> & ->)|N2];
      [left; exact Hcd|].
    rewrite !Hother by tauto. apply Hinv.
Qed.

Lemma NettingInv_zeroed (token d c : address) (st : State) :
  NettingInv st -> NettingInv (set_debt token d c 0 st).
Proof.
  intros Hinv asset A B. rewrite !debts_set_debt.
  destruct (decide (token = asset /\ d = A /\ c = B)); [left; reflexivity|].
  destruct (decide (token = asset /\ d = B /\ c = A)); [right; reflexivity|].
  apply Hinv.
Qed.

Lemma call_NettingInv (ts : uint256) (c : Call) (st st' : State) :
  call ts c st = Ok st' -> NettingInv st -> NettingInv st'.
Proof.
  apply (call_rel (fun s s' => NettingInv s -> NettingInv s')).
  - auto.
  - auto.
  - intros sender token debtor amount memo s s' H.
    apply proposeDebt_effect in H as (_ & _ & ->). auto.
  - intros sender id t s s' H Hinv.
    apply confirmDebt_effect in H as (_ & _ & s1 & Hadd & ->).
    exact (NettingInv_addDebt _ _ _ _ _ _ _ _ Hadd Hinv).
  - intros sender id s s' H.
    apply rejectDebt_effect in H as (_ & _ & ->). auto.
  - intros discordId w s s' H.
    apply registerUser_effect in H as (_ & ->). auto.
  - intros sender token creditor s _. apply NettingInv_zeroed.
  - auto.
Qed.

(** X1.  In every state the contract can reach, by any transactions
    (settlements and calls the token makes during [transferFrom]
    included), no two accounts owe each other at once on any asset: of
    the entries (A,B) and (B,A) at most one is non-zero, and no account
    owes itself. *)
Theorem netting_invariant_reachable (txs : list Tx) (asset A B : address) :
  let st := run txs init in
  (debts st asset A B = 0 \/ debts st asset B A = 0) /\
  debts st asset A A = 0.
Proof.
  intros st.
  assert (Hinv : NettingInv st).
  { unfold st. generalize init, (fun (a x y : address) =>
      or_introl eq_refl : debts init a x y = 0 \/ debts init a y x = 0).
    induction txs as [|tx txs IH]; intros s Hs; simpl; [exact Hs|].
    apply IH. unfold transact.
    destruct (call (tx_timestamp tx) (tx_call tx) s) eqn:E; simpl;
      [exact (call_NettingInv _ _ _ _ E Hs)|exact Hs]. }
  split; [apply Hinv|]. destruct (Hinv asset A A); assumption.
Qed.

(** ** Who can raise and who can lower an entry *)

Lemma confirm_moves (sender : address) (id ts : uint256) (st st' : State) :
  confirmDebt sender id ts st = Ok st' ->
  exists token creditor,
    debts st' token creditor sender <= debts st token creditor sender /\
    debts st token sender creditor <= debts st' token sender creditor /\
    forall t' d' c',
      ~ (t' = token /\ ((d' = sender /\ c' = creditor)
                        \/ (d' = creditor /\ c' = sender))) ->
      debts st' t' d' c' = debts st t' d' c'.
Proof.
  intros H. apply confirmDebt_effect in H as (_ & Hs & s1 & Hadd & ->).
  rewrite <- Hs in Hadd.
  apply addDebt_effect in Hadd as (_ & _ & Hcd & Hdc & Hother & _).
  exists (PendingDebt.token (pendingDebts st id)),
         (PendingDebt.creditor (pendingDebts st id)).
  cbn. rewrite Hcd, Hdc. repeat split.
  - destruct (_ <=? _); lia.
  - destruct (_ <=? _); lia.
  - exact Hother.
Qed.

Lemma never_raised_without_consent (who : address) (ts : uint256) :
  (forall c st st',
      call ts c st = Ok st' -> confirms_as who c = false ->
      forall asset creditor,
        debts st' asset who creditor <= debts st asset who creditor) /\
  (forall t st success st',
      transferFrom ts t st = Ok (success, st') ->
      transfer_confirms_as who t = false ->
      forall asset creditor,
        debts st' asset who creditor <= debts st asset who creditor).
Proof.
  apply Call_Transfer_ind; simpl.
  - intros sender token debtor amount memo st st' H _ asset creditor.
    apply proposeDebt_effect in H as (_ & _ & ->). reflexivity.
  - intros sender id st st' H Hwho asset creditor.
    apply N.eqb_neq in Hwho.
    destruct (confirm_moves _ _ _ _ _ H) as (token & cr & Hdown & _ & Hother).
    destruct (decide (asset = token /\ who = cr /\ creditor = sender))
      as [(-> & -> & ->)|N1]; [exact Hdown|].
    rewrite Hother; [reflexivity|]. intros (-> & [[-> ->]|[-> ->]]); tauto.
  - intros sender id st st' H _ asset creditor.
    apply rejectDebt_effect in H as (_ & _ & ->). reflexivity.
  - intros sender token creditor transfer IH st st' H Hwho asset cr.
    apply settleDebt_effect in H as (_ & success & st2 & Hext & ->).
    cbn. etransitivity; [eapply IH; eassumption|].
    rewrite debts_set_debt. destruct (decide _); lia.
  - intros discordId w st st' H _ asset creditor.
    apply registerUser_effect in H as (_ & ->). reflexivity.
  - intros success st b st' [= <- <-] _ asset creditor. reflexivity.
  - discriminate.
  - intros inner IHc rest IHt st success st' H Hwho asset creditor.
    apply orb_false_iff in Hwho as [Hi Hr].
    etransitivity; [eapply IHt; eassumption|].
    destruct (call ts inner st) as [st1|r] eqn:E; simpl;
      [eapply IHc; eassumption|reflexivity].
Qed.

(** X2.  Debtor consent.  Take any call of the contract that returns,
    with everything the token calls back during [transferFrom].  If
    nowhere in it [confirmDebt] is sent by [who], then no entry in which
    [who] is the debtor has grown, on any asset and towards any creditor. *)
Theorem debt_grows_only_by_own_confirmation (who : address) (ts : uint256)
    (c : Call) (st st' : State) :
  call ts c st = Ok st' ->
  confirms_as who c = false ->
  forall asset creditor,
    debts st' asset who creditor <= debts st asset who creditor.
Proof. apply never_raised_without_consent. Qed.

Lemma debt_grows_only_by_own_confirmation_witness :
  let st' := or_unchanged owing (call 5 (CallConfirmDebt 1 2)
                 (run [mkTx 4 (CallProposeDebt 2 9 1 5 "tea")] owing)) in
  debts st' 9 1 2 = 55 /\ debts st' 9 2 1 <= 0.
Proof.
  intros st'. split; [reflexivity|].
  assert (H : call 5 (CallConfirmDebt 1 2)
                (run [mkTx 4 (CallProposeDebt 2 9 1 5 "tea")] owing) = Ok st')
    by (vm_compute; reflexivity).
  exact (debt_grows_only_by_own_confirmation 2 5 _ _ _ H eq_refl 9 1).
Defined.

Lemma never_lowered_without_party (asset debtor creditor : address)
    (ts : uint256) :
  (forall c st st',
      call ts c st = Ok st' ->
      settles asset debtor creditor c = false ->
      confirms_as creditor c = false ->
      debts st asset debtor creditor <= debts st' asset debtor creditor) /\
  (forall t st success st',
      transferFrom ts t st = Ok (success, st') ->
      transfer_settles asset debtor creditor t = false ->
      transfer_confirms_as creditor t = false ->
      debts st asset debtor creditor <= debts st' asset debtor creditor).
Proof.
  apply Call_Transfer_ind; simpl.
  - intros sender token d amount memo st st' H _ _.
    apply proposeDebt_effect in H as (_ & _ & ->). reflexivity.
  - intros sender id st st' H _ Hwho.
    apply N.eqb_neq in Hwho.
    destruct (confirm_moves _ _ _ _ _ H) as (token & cr & _ & Hup & Hother).
    destruct (decide (asset = token /\ debtor = sender /\ creditor = cr))
      as [(-> & -> & ->)|N1]; [exact Hup|].
    rewrite Hother; [reflexivity|]. intros (-> & [[-> ->]|[-> ->]]); tauto.
  - intros sender id st st' H _ _.
    apply rejectDebt_effect in H as (_ & _ & ->). reflexivity.
  - intros sender token cr transfer IH st st' H Hset Hwho.
    apply orb_false_iff in Hset as [Hself Hinner].
    apply settleDebt_effect in H as (_ & success & st2 & Hext & ->).
    cbn. etransitivity; [|eapply IH; eassumption].
    rewrite debts_set_debt. destruct (decide _) as [(-> & -> & ->)|_];
      [|reflexivity].
    rewrite !N.eqb_refl in Hself. discriminate.
  - intros discordId w st st' H _ _.
    apply registerUser_effect in H as (_ & ->). reflexivity.
  - intros success st b st' [= <- <-] _ _. reflexivity.
  - discriminate.
  - intros inner IHc rest IHt st success st' H Hset Hwho.
    apply orb_false_iff in Hset as [Hsi Hsr].
    apply orb_false_iff in Hwho as [Hwi Hwr].
    etransitivity; [|eapply IHt; eassumption].
    destruct (call ts inner st) as [st1|r] eqn:E; simpl;
      [eapply IHc; eassumption|reflexivity].
Qed.

(** X3.  What [debtor] owes [creditor] on an asset shrinks only when the
    debtor settles that entry or the creditor confirms a proposal: a call
    that returns and in which, calls of the token included, neither
    happens leaves the entry at least as large as it was. *)
Theorem debt_shrinks_only_by_settlement_or_creditor (asset debtor creditor : address)
    (ts : uint256) (c : Call) (st st' : State) :
  call ts c st = Ok st' ->
  settles asset debtor creditor c = false ->
  confirms_as creditor c = false ->
  debts st asset debtor creditor <= debts st' asset debtor creditor.
Proof. apply never_lowered_without_party. Qed.

Lemma debt_shrinks_only_by_settlement_or_creditor_witness :
  let c := CallSettleDebt 1 9 3 (Reenters (CallRejectDebt 1 1) (Returns true)) in
  let st := run [mkTx 3 (CallProposeDebt 3 9 1 8 "book");
                 mkTx 4 (CallConfirmDebt 1 2)] owing in
  let st' := or_unchanged st (call 5 c st) in
  debts st 9 1 3 = 8 /\ debts st' 9 1 3 = 0 /\ 50 <= debts st' 9 1 2.
Proof.
  intros c st st'. split; [reflexivity|]. split; [reflexivity|].
  assert (H : call 5 c st = Ok st') by (vm_compute; reflexivity).
  exact (debt_shrinks_only_by_settlement_or_creditor 9 1 2 5 c st st' H
           eq_refl eq_refl).
Defined.

(** ** Sequence numbers *)

Lemma counts_down_rev (n : uint256) (l : list uint256) :
  counts_down_from n l -> rev l = one_to n.
Proof.
  revert n. induction l as [|i rest IH]; intros n; simpl.
  - intros ->. reflexivity.
  - intros (-> & Hpos & Hrest). rewrite (IH _ Hrest). unfold one_to.
    replace (N.to_nat n) with (S (N.to_nat (n - 1))) by lia.
    rewrite seq_S, map_app. simpl. do 2 f_equal. lia.
Qed.

Lemma numbers_rev (number : Event -> option uint256) (log : list Event) :
  numbers number (rev log) = rev (numbers number log).
Proof.
  unfold numbers. induction log as [|e log IH]; [reflexivity|].
  simpl. rewrite flat_map_app, IH, rev_app_distr. simpl.
  rewrite app_nil_r. destruct (number e); reflexivity.
Qed.

Lemma call_actionIds (ts : uint256) (c : Call) (st st' : State) :
  call ts c st = Ok st' ->
  counts_down_from (debtActionCounter st) (numbers actionId_of (events st)) ->
  counts_down_from (debtActionCounter st')
                   (numbers actionId_of (events st')).
Proof.
  apply (call_rel (fun s s' =>
    counts_down_from (debtActionCounter s) (numbers actionId_of (events s)) ->
    counts_down_from (debtActionCounter s')
                     (numbers actionId_of (events s')))).
  - auto.
  - auto.
  - intros sender token debtor amount memo s s' H.
    apply proposeDebt_effect in H as (_ & _ & ->). auto.
  - intros sender id t s s' H Hinv.
    apply confirmDebt_effect in H as (_ & _ & s1 & Hadd & ->).
    apply addDebt_effect in Hadd as (_ & _ & _ & _ & _ & Hc & Hev & _).
    cbn. rewrite Hev, Hc. cbn. repeat split; [lia|].
    replace (debtActionCounter s + 1 - 1) with (debtActionCounter s) by lia.
    exact Hinv.
  - intros sender id s s' H.
    apply rejectDebt_effect in H as (_ & _ & ->). auto.
  - intros discordId w s s' H.
    apply registerUser_effect in H as (_ & ->). auto.
  - auto.
  - auto.
Qed.

Lemma call_proposalIds (ts : uint256) (c : Call) (st st' : State) :
  call ts c st = Ok st' ->
  counts_down_from (pendingDebtCounter st) (numbers proposalId (events st)) ->
  counts_down_from (pendingDebtCounter st')
                   (numbers proposalId (events st')).
Proof.
  apply (call_rel (fun s s' =>
    counts_down_from (pendingDebtCounter s) (numbers proposalId (events s)) ->
    counts_down_from (pendingDebtCounter s')
                     (numbers proposalId (events s')))).
  - auto.
  - auto.
  - intros sender token debtor amount memo s s' H Hinv.
    apply proposeDebt_effect in H as (_ & _ & ->).
    cbn. repeat split; [lia|].
    replace (pendingDebtCounter s + 1 - 1) with (pendingDebtCounter s) by lia.
    exact Hinv.
  - intros sender id t s s' H Hinv.
    apply confirmDebt_effect in H as (_ & _ & s1 & Hadd & ->).
    apply addDebt_effect in Hadd
      as (_ & _ & _ & _ & _ & _ & Hev & _ & Hc & _).
    cbn. rewrite Hev, Hc. exact Hinv.
  - intros sender id s s' H.
    apply rejectDebt_effect in H as (_ & _ & ->). auto.
  - intros discordId w s s' H.
    apply registerUser_effect in H as (_ & ->). auto.
  - auto.
  - auto.
Qed.

Lemma run_invariant (I : State -> Prop) :
  (forall ts c st st', call ts c st = Ok st' -> I st -> I st') ->
  forall txs st, I st -> I (run txs st).
Proof.
  intros Hstep txs. induction txs as [|tx txs IH]; intros st Hst; simpl.
  - exact Hst.
  - apply IH. unfold transact.
    destruct (call (tx_timestamp tx) (tx_call tx) st) eqn:E; simpl;
      [exact (Hstep _ _ _ _ E Hst)|exact Hst].
Qed.

(** X4.  In every state the contract can reach, the [DebtAdded] events of
    the log carry, in the order they were emitted, the sequence numbers
    1, 2, ..., [debtActionCounter]: one event per number, none skipped,
    none repeated, whatever reverted in between. *)
Theorem action_ids_consecutive (txs : list Tx) :
  let st := run txs init in
  numbers actionId_of (event_log st) = one_to (debtActionCounter st).
Proof.
  intros st. unfold event_log. rewrite numbers_rev.
  apply counts_down_rev.
  apply (run_invariant (fun s =>
    counts_down_from (debtActionCounter s) (numbers actionId_of (events s)))).
  - exact call_actionIds.
  - reflexivity.
Qed.

(** X5.  In every state the contract can reach, the [DebtProposed] events
    of the log carry, in the order they were emitted, the ids 1, 2, ...,
    [pendingDebtCounter]: every proposal has an id of its own and the
    counter is the number of proposals made so far. *)
Theorem proposal_ids_consecutive (txs : list Tx) :
  let st := run txs init in
  numbers proposalId (event_log st) = one_to (pendingDebtCounter st) /\
  List.NoDup (numbers proposalId (event_log st)).
Proof.
  intros st.
  assert (H : numbers proposalId (event_log st)
              = one_to (pendingDebtCounter st)).
  { unfold event_log. rewrite numbers_rev. apply counts_down_rev.
    apply (run_invariant (fun s =>
      counts_down_from (pendingDebtCounter s)
                       (numbers proposalId (events s)))).
    - exact call_proposalIds.
    - reflexivity. }
  split; [exact H|]. rewrite H. unfold one_to.
  apply Finite.Injective_map_NoDup; [|apply seq_NoDup].
  intros x y. apply Nat2N.inj.
Qed.

(** ** The proposal store against the log *)

Lemma StoreInv_init : StoreInv init.
Proof.
  split; simpl; try contradiction.
  - discriminate.
  - intros id [H1 H2]. lia.
  - intros id H. unfold resolutions in H. simpl in H. lia.
Qed.

Lemma StoreInv_propose (sender token debtor : address) (amount : uint256)
    (memo : string) (st st' : State) :
  proposeDebt sender token debtor amount memo st = Ok st' ->
  ProposalInv st -> StoreInv st -> StoreInv st'.
Proof.
  intros H Hp [Hal Hst Hlog Hor Hpd Hrl].
  apply proposeDebt_effect in H as (Hne & _ & ->).
  set (id0 := pendingDebtCounter st + 1).
  split; cbn [events emit pendingDebtCounter set_pendingDebt
              set_pendingDebtCounter pendingDebts].
  - intros e id [<-|Hin] Hid.
    + injection Hid as <-. lia.
    + specialize (Hal e id Hin Hid). lia.
  - intros id c d t a m [Heq|Hin] Hres.
    + injection Heq as <- <- <- <- <- <-. apply fn_lookup_insert.
    + rewrite resolutions_cons in Hres. simpl in Hres.
      rewrite fn_lookup_insert_ne.
      * apply Hst; assumption.
      * specialize (Hal _ id Hin eq_refl). unfold id0. lia.
  - intros id. change (isOpen (emit ?e ?s) id) with (isOpen s id).
    rewrite isOpen_set_pendingDebt.
    destruct (decide _) as [<-|E].
    + intros _. exists sender, debtor, token, amount, memo. left. reflexivity.
    + intros Hopen. destruct (Hlog id Hopen) as (c & d & t & a & m & Hin).
      exists c, d, t, a, m. right. exact Hin.
  - intros id Hid. change (isOpen (emit ?e ?s) id) with (isOpen s id).
    rewrite isOpen_set_pendingDebt, resolutions_cons. simpl.
    destruct (decide _) as [<-|E]; [left; reflexivity|].
    apply Hor. unfold id0 in *. lia.
  - intros id c d t a m [Heq|Hin].
    + injection Heq as <- <- <- <- <- <-. congruence.
    + eapply Hpd; eassumption.
  - intros id Hres. rewrite resolutions_cons in Hres. simpl in Hres.
    destruct (Hrl id Hres) as (c & d & t & a & m & Hin).
    exists c, d, t, a, m. right. exact Hin.
Qed.

Lemma StoreInv_resolve (e : Event) (id0 : uint256) (st st1 : State) :
  e = DebtConfirmed id0 \/ e = DebtRejected id0 ->
  isOpen st id0 = true ->
  pendingDebts st1 = pendingDebts st ->
  pendingDebtCounter st1 = pendingDebtCounter st ->
  (events st1 = events st
   \/ exists a d c t v m ts, events st1 = DebtAdded a d c t v m ts :: events st) ->
  StoreInv st ->
  StoreInv (emit e (set_pendingDebt id0 PendingDebt.zero st1)).
Proof.
  intros He Hopen0 Hp Hc Hev [Hal Hst Hlog Hor Hpd Hrl].
  assert (Hin : forall x, proposalId x <> None ->
              List.In x (e :: events st1) -> List.In x (events st)).
  { intros x Hx [<-|Hin].
    - destruct He as [-> | ->]; contradiction.
    - destruct Hev as [E|(a & d & c & t & v & m & ts & E)]; rewrite E in Hin;
        [exact Hin|]. destruct Hin as [<-|Hin]; [contradiction|exact Hin]. }
  assert (Hsub : forall x, List.In x (events st) ->
                           List.In x (e :: events st1)).
  { intros x Hx. right.
    destruct Hev as [E|(a & d & c & t & v & m & ts & E)]; rewrite E;
      [exact Hx|right; exact Hx]. }
  assert (Hres : forall id,
             resolutions id (e :: events st1)
             = ((if decide (id0 = id) then 1 else 0)
                + resolutions id (events st))%nat).
  { intros id. rewrite resolutions_cons.
    replace (resolutions id (events st1)) with (resolutions id (events st))
      by (destruct Hev as [E|(a & d & c & t & v & m & ts & E)]; rewrite E;
          [reflexivity|rewrite resolutions_cons; reflexivity]).
    destruct He as [-> | ->]; simpl;
      destruct (decide (id0 = id)) as [<-|E];
      rewrite ?N.eqb_refl; try reflexivity;
      apply N.eqb_neq in E; rewrite E; reflexivity. }
  assert (Hopen1 : forall id, isOpen st1 id = isOpen st id)
    by (intros id; unfold isOpen; rewrite Hp; reflexivity).
  split; cbn [events emit pendingDebtCounter set_pendingDebt pendingDebts].
  - intros x id Hx Hid. rewrite Hc. apply (Hal x id); [|exact Hid].
    apply Hin; [congruence|exact Hx].
  - intros id c d t a m Hx Hr. rewrite Hres in Hr.
    destruct (decide (id0 = id)) as [<-|E]; [lia|].
    rewrite fn_lookup_insert_ne by exact E. rewrite Hp.
    apply Hst; [apply Hin; [discriminate|exact Hx]|lia].
  - intros id. change (isOpen (emit ?x ?s) id) with (isOpen s id).
    rewrite isOpen_set_pendingDebt.
    destruct (decide _) as [<-|E]; [discriminate|].
    rewrite Hopen1. intros Hopen.
    destruct (Hlog id Hopen) as (c & d & t & a & m & Hx).
    exists c, d, t, a, m. apply Hsub, Hx.
  - intros id Hid. change (isOpen (emit ?x ?s) id) with (isOpen s id).
    rewrite isOpen_set_pendingDebt, Hres.
    destruct (decide _) as [<-|E]; [right; lia|].
    rewrite Hopen1. rewrite Hc in Hid.
    destruct (Hor id Hid) as [H|H]; [left; exact H|right; lia].
  - intros id c d t a m Hx. apply (Hpd id c d t a m).
    apply Hin; [discriminate|exact Hx].
  - intros id Hr. rewrite Hres in Hr.
    assert (Hex : exists c d t a m,
               List.In (DebtProposed id c d t a m) (events st)).
    { destruct (decide (id0 = id)) as [<-|E];
        [apply Hlog, Hopen0|apply Hrl; lia]. }
    destruct Hex as (c & d & t & a & m & Hx).
    exists c, d, t, a, m. apply Hsub, Hx.
Qed.

Lemma StoreInv_frame (st st' : State) :
  pendingDebts st' = pendingDebts st ->
  pendingDebtCounter st' = pendingDebtCounter st ->
  (events st' = events st
   \/ exists e, events st' = e :: events st /\ proposalId e = None /\
                (forall id, isDebtConfirmed id e = false) /\
                (forall id, isDebtRejected id e = false)) ->
  StoreInv st -> StoreInv st'.
Proof.
  intros Hp Hc Hev [Hal Hst Hlog Hor Hpd Hrl].
  assert (Hin : forall x, proposalId x <> None ->
              List.In x (events st') -> List.In x (events st)).
  { intros x Hx Hi. destruct Hev as [E|(e & E & He & _)]; rewrite E in Hi;
      [exact Hi|]. destruct Hi as [<-|Hi]; [contradiction|exact Hi]. }
  assert (Hsub : forall x, List.In x (events st) -> List.In x (events st')).
  { intros x Hx. destruct Hev as [E|(e & E & _)]; rewrite E;
      [exact Hx|right; exact Hx]. }
  assert (Hres : forall id, resolutions id (events st')
                            = resolutions id (events st)).
  { intros id. destruct Hev as [->|(e & -> & _ & HC & HR)]; [reflexivity|].
    rewrite resolutions_cons, HC, HR. reflexivity. }
  split; unfold isOpen; rewrite ?Hp, ?Hc.
  - intros x id Hx Hid. apply (Hal x id); [|exact Hid].
    apply Hin; [congruence|exact Hx].
  - intros id c d t a m Hx Hr. rewrite Hres in Hr.
    apply Hst; [apply Hin; [discriminate|exact Hx]|exact Hr].
  - intros id Hopen. destruct (Hlog id Hopen) as (c & d & t & a & m & Hx).
    exists c, d, t, a, m. apply Hsub, Hx.
  - intros id Hid. rewrite Hres. apply Hor, Hid.
  - intros id c d t a m Hx. apply (Hpd id c d t a m).
    apply Hin; [discriminate|exact Hx].
  - intros id Hr. rewrite Hres in Hr.
    destruct (Hrl id Hr) as (c & d & t & a & m & Hx).
    exists c, d, t, a, m. apply Hsub, Hx.
Qed.

Lemma call_StoreInv (ts : uint256) (c : Call) (st st' : State) :
  call ts c st = Ok st' ->
  ProposalInv st /\ StoreInv st -> ProposalInv st' /\ StoreInv st'.
Proof.
  apply (call_rel (fun s s' => ProposalInv s /\ StoreInv s ->
                               ProposalInv s' /\ StoreInv s')).
  - auto.
  - auto.
  - intros sender token debtor amount memo s s' H [Hp Hs]. split.
    + eapply ProposalInv_propose; eassumption.
    + eapply StoreInv_propose; eassumption.
  - intros sender id t s s' H [Hp Hs].
    apply confirmDebt_effect in H as (Hex & _ & s1 & Hadd & ->).
    apply addDebt_effect in Hadd
      as (_ & _ & _ & _ & _ & _ & Hev & Hpe & Hc & _).
    split.
    + eapply ProposalInv_resolve; eauto 10.
    + eapply StoreInv_resolve; eauto 10.
  - intros sender id s s' H [Hp Hs].
    apply rejectDebt_effect in H as (Hex & _ & ->). split.
    + eapply ProposalInv_resolve; eauto.
    + eapply StoreInv_resolve; eauto.
  - intros discordId w s s' H [Hp Hs].
    apply registerUser_effect in H as (_ & ->).
    split; [eapply ProposalInv_frame|eapply StoreInv_frame];
      try eassumption; try reflexivity;
      right; eexists; repeat split; reflexivity.
  - intros sender token creditor s _ [Hp Hs].
    split; [eapply ProposalInv_frame|eapply StoreInv_frame];
      try eassumption; try reflexivity; left; reflexivity.
  - intros sender token creditor v s [Hp Hs].
    split; [eapply ProposalInv_frame|eapply StoreInv_frame];
      try eassumption; try reflexivity;
      right; eexists; repeat split; reflexivity.
Qed.

Lemma reachable_StoreInv (txs : list Tx) :
  ProposalInv (run txs init) /\ StoreInv (run txs init).
Proof.
  apply (run_invariant (fun s => ProposalInv s /\ StoreInv s)).
  - exact call_StoreInv.
  - split; [exact ProposalInv_init|exact StoreInv_init].
Qed.


(** X7.  [isDebtResolved], which looks for resolution events in the log,
    agrees with the contract's store in every reachable state: it answers
    [true] for exactly the ids that have been allocated (1 up to
    [pendingDebtCounter]) and are no longer stored as existing. *)
Theorem isDebtResolved_reads_the_store (txs : list Tx) (id : uint256) :
  let st := run txs init in
  isDebtResolved (event_log st) id = true <->
  1 <= id <= pendingDebtCounter st /\ isOpen st id = false.
Proof.
  intros st. destruct (reachable_StoreInv txs) as [Hp Hs].
  fold st in Hp, Hs.
  rewrite isDebtResolved_resolutions. unfold event_log.
  rewrite resolutions_rev, negb_true_iff, Nat.eqb_neq. split.
  - intros Hres.
    assert (Hone : (1 <= resolutions id (events st))%nat) by lia.
    split; [|apply resolved_not_open; assumption].
    destruct (resolved_is_logged _ Hs id Hone) as (c & d & t & a & m & H).
    apply (logged_ids_allocated _ Hs _ id H). reflexivity.
  - intros [Hid Hclosed].
    destruct (allocated_open_or_resolved _ Hs id Hid) as [H|H];
      [congruence|lia].
Qed.

(** ** Rejection and confirmation on reachable states *)

(** X8.  An open proposal cannot be rejected by a third party: for a
    caller who is neither its debtor nor its creditor, [rejectDebt] fails
    with "Only debtor or creditor can reject" (Unauthorized) and the
    transaction leaves the state, the open proposal included, as it was. *)
Theorem unauthorized_reject (st : State) (id caller ts : uint256) :
  isOpen st id = true ->
  caller <> PendingDebt.debtor (pendingDebts st id) ->
  caller <> PendingDebt.creditor (pendingDebts st id) ->
  rejectDebt caller id st = Err OnlyPartiesReject /\
  fails_with (rejectDebt caller id st) Unauthorized /\
  transact st (mkTx ts (CallRejectDebt caller id)) = st.
Proof.
  intros Hopen Hd Hc.
  assert (E : rejectDebt caller id st = Err OnlyPartiesReject).
  { unfold rejectDebt. unfold isOpen in Hopen. rewrite Hopen. simpl.
    apply N.eqb_neq in Hd, Hc. rewrite Hd, Hc. reflexivity. }
  unfold transact. simpl. rewrite E. repeat split.
Qed.

Lemma unauthorized_reject_witness :
  (isOpen proposed 1 = true /\
   3 <> PendingDebt.debtor (pendingDebts proposed 1) /\
   3 <> PendingDebt.creditor (pendingDebts proposed 1)) /\
  rejectDebt 3 1 proposed = Err OnlyPartiesReject.
Proof.
  assert (Hopen : isOpen proposed 1 = true) by reflexivity.
  assert (Hd : 3 <> PendingDebt.debtor (pendingDebts proposed 1))
    by (vm_compute; discriminate).
  assert (Hc : 3 <> PendingDebt.creditor (pendingDebts proposed 1))
    by (vm_compute; discriminate).
  split; [repeat split; assumption|].
  exact (proj1 (unauthorized_reject proposed 1 3 0 Hopen Hd Hc)).
Defined.

(** X9.  In every state the contract can reach, what stops the debtor of
    an open proposal from confirming it is the amount or the arithmetic,
    nothing else: [confirmDebt] by the debtor returns exactly when the
    stored amount is positive and the netting fits [uint256]; it fails
    with "Debt amount must be positive" for amount 0 and with the
    arithmetic panic otherwise.  Stored parties are never equal. *)
Theorem confirm_by_debtor (txs : list Tx) (id ts : uint256) :
  let st := run txs init in
  let p := pendingDebts st id in
  isOpen st id = true ->
  PendingDebt.creditor p <> PendingDebt.debtor p /\
  ((exists st', confirmDebt (PendingDebt.debtor p) id ts st = Ok st') <->
   0 < PendingDebt.amount p /\
   netting_fits (PendingDebt.token p) (PendingDebt.debtor p)
                (PendingDebt.creditor p) (PendingDebt.amount p) st) /\
  (PendingDebt.amount p = 0 ->
   confirmDebt (PendingDebt.debtor p) id ts st = Err AmountNotPositive) /\
  (0 < PendingDebt.amount p ->
   ~ netting_fits (PendingDebt.token p) (PendingDebt.debtor p)
                  (PendingDebt.creditor p) (PendingDebt.amount p) st ->
   confirmDebt (PendingDebt.debtor p) id ts st = Err ArithmeticPanic).
Proof.
  intros st p Hopen. destruct (reachable_StoreInv txs) as [Hp Hs].
  fold st in Hp, Hs.
  assert (Hne : PendingDebt.creditor p <> PendingDebt.debtor p).
  { destruct (open_is_logged _ Hs id Hopen) as (c & d & t & a & m & H).
    unfold p.
    rewrite (unresolved_is_stored _ Hs _ _ _ _ _ _ H
               (open_not_resolved _ Hp _ Hopen)).
    simpl. exact (parties_distinct _ Hs _ _ _ _ _ _ H). }
  assert (Hbody : confirmDebt (PendingDebt.debtor p) id ts st
            = bind (addDebt (PendingDebt.token p) (PendingDebt.debtor p)
                      (PendingDebt.creditor p) (PendingDebt.amount p)
                      (PendingDebt.memo p) ts st)
                (fun s => Ok (emit (DebtConfirmed id)
                          (set_pendingDebt id PendingDebt.zero s)))).
  { unfold confirmDebt. fold p. unfold isOpen in Hopen. fold p in Hopen.
    rewrite Hopen, N.eqb_refl. reflexivity. }
  split; [exact Hne|]. split; [split|split].
  - intros [st' H]. rewrite Hbody in H. steps H.
    pose proof Hstep as Heff.
    apply addDebt_effect in Heff as (_ & Hpos & _). split; [exact Hpos|].
    destruct (netting_fits_decided (PendingDebt.token p) (PendingDebt.debtor p)
                (PendingDebt.creditor p) (PendingDebt.amount p) st)
      as [F|F]; [exact F|].
    rewrite (addDebt_panics _ _ _ _ _ _ _ (not_eq_sym Hne) Hpos F) in Hstep.
    discriminate.
  - intros [Hpos Hfit]. rewrite Hbody.
    destruct (addDebt_returns _ _ _ _ (PendingDebt.memo p) ts _
                (not_eq_sym Hne) Hpos Hfit) as [s1 ->].
    eexists. reflexivity.
  - intros Hzero. rewrite Hbody. unfold addDebt.
    replace (negb (PendingDebt.debtor p =? PendingDebt.creditor p)) with true
      by (symmetry; apply negb_true_iff, N.eqb_neq, not_eq_sym, Hne).
    rewrite Hzero. reflexivity.
  - intros Hpos Hfit. rewrite Hbody.
    rewrite (addDebt_panics _ _ _ _ _ _ _ (not_eq_sym Hne) Hpos Hfit).
    reflexivity.
Qed.

Lemma confirm_by_debtor_witness :
  isOpen proposed 1 = true /\
  exists st', confirmDebt 2 1 5 proposed = Ok st'.
Proof.
  assert (Hopen : isOpen proposed 1 = true) by reflexivity.
  split; [exact Hopen|].
  destruct (confirm_by_debtor [mkTx 1 (CallProposeDebt 1 9 2 7 "taxi")] 1 5
              Hopen) as (_ & Hiff & _).
  apply (proj2 Hiff). split; [reflexivity|].
  split; [right|]; vm_compute; discriminate.
Defined.

(** ** Settling once *)

(** X10.  A positive entry that its debtor settles through a token that
    returns without calling back (whatever [bool] it returns): the call
    returns, that entry is zero, every other entry, the proposals, the
    counters and the registry are as before, and exactly one event is
    added to the log.  Settling the same entry again then fails with
    "No debt to settle", whatever the token would do. *)
Theorem settle_once (ts : uint256) (sender token creditor : address)
    (success : bool) (st : State) :
  0 < debts st token sender creditor ->
  exists st',
    call ts (CallSettleDebt sender token creditor (Returns success)) st
    = Ok st' /\
    debts st' token sender creditor = 0 /\
    (forall t d c, ~ (token = t /\ sender = d /\ creditor = c) ->
                   debts st' t d c = debts st t d c) /\
    pendingDebts st' = pendingDebts st /\
    pendingDebtCounter st' = pendingDebtCounter st /\
    debtActionCounter st' = debtActionCounter st /\
    discordToWallet st' = discordToWallet st /\
    walletToDiscord st' = walletToDiscord st /\
    events st' = DebtSettled sender creditor token
                   (debts st token sender creditor) :: events st /\
    forall ts' transfer,
      call ts' (CallSettleDebt sender token creditor transfer) st'
      = Err NoDebtToSettle.
Proof.
  intros Hpos. eexists. split; [apply settle_transfer_returns, Hpos|].
  cbn. split; [apply debts_set_debt_eq|].
  split; [intros t d c Hne; apply debts_set_debt_ne, Hne|].
  repeat (split; [reflexivity|]).
  intros ts' transfer. apply settle_nothing. cbn. apply debts_set_debt_eq.
Qed.

Lemma settle_once_witness :
  0 < debts owing 9 1 2 /\
  exists st', call 3 (CallSettleDebt 1 9 2 (Returns true)) owing = Ok st' /\
              call 4 (CallSettleDebt 1 9 2 (Returns true)) st'
              = Err NoDebtToSettle.
Proof.
  assert (Hpos : 0 < debts owing 9 1 2) by reflexivity.
  split; [exact Hpos|].
  destruct (settle_once 3 1 9 2 true owing Hpos)
    as (st' & H & _ & _ & _ & _ & _ & _ & _ & _ & Hagain).
  exists st'. split; [exact H|apply Hagain].
Defined.

(** ** The log is append-only *)

(** X11.  Whatever transactions run, returning or reverting, with or
    without calls made by the token: the log of the state before is a
    prefix of the log of the state after.  No event is ever removed,
    changed or reordered. *)
Theorem log_append_only (txs : list Tx) (st : State) :
  exists newer, event_log (run txs st) = (event_log st ++ newer)%list.
Proof.
  destruct (run_extends_log txs st) as [newer H].
  exists (rev newer). unfold event_log. rewrite H. apply rev_app_distr.
Qed.

(** ** Netting does not depend on the order *)

Lemma signed_sum_Permutation (xs ys : list Applied) :
  Permutation xs ys -> signed_sum xs = signed_sum ys.
Proof.
  induction 1 as [|x xs ys _ IH|x y xs|xs ys zs _ IH1 _ IH2]; simpl.
  - reflexivity.
  - rewrite IH. reflexivity.
  - lia.
  - congruence.
Qed.

(** X12.  Netting is commutative in its net effect: two sequences of
    [addDebt] calls between the same pair on the same asset that are
    rearrangements of each other and that both return from the all-zero
    state leave the same two entries. *)
Theorem netting_order_independent (asset A B : address)
    (xs ys : list Applied) (s1 s2 : State) :
  Permutation xs ys ->
  applyDebts asset A B xs init = Ok s1 ->
  applyDebts asset A B ys init = Ok s2 ->
  debts s1 asset A B = debts s2 asset A B /\
  debts s1 asset B A = debts s2 asset B A.
Proof.
  intros Hperm H1 H2.
  assert (Hinit : netted asset A B init) by (left; reflexivity).
  destruct (applyDebts_conserves asset A B _ _ _ H1 Hinit) as [N1 S1].
  destruct (applyDebts_conserves asset A B _ _ _ H2 Hinit) as [N2 S2].
  rewrite (signed_sum_Permutation _ _ Hperm) in S1.
  unfold netted, net in *. lia.
Qed.

Lemma netting_order_independent_witness :
  let xs := [mkApplied AowesB 100 "rent" 1; mkApplied BowesA 30 "taxi" 2] in
  let ys := [mkApplied BowesA 30 "taxi" 2; mkApplied AowesB 100 "rent" 1] in
  debts (or_unchanged init (applyDebts 9 1 2 xs init)) 9 1 2
  = debts (or_unchanged init (applyDebts 9 1 2 ys init)) 9 1 2.
Proof.
  intros xs ys.
  assert (H1 : applyDebts 9 1 2 xs init
               = Ok (or_unchanged init (applyDebts 9 1 2 xs init)))
    by (vm_compute; reflexivity).
  assert (H2 : applyDebts 9 1 2 ys init
               = Ok (or_unchanged init (applyDebts 9 1 2 ys init)))
    by (vm_compute; reflexivity).
  exact (proj1 (netting_order_independent 9 1 2 xs ys _ _
                  (perm_swap _ _ []) H1 H2)).
Defined.

(** * Further properties of the bot *)

(** ** The pending balance is what the store holds *)

Lemma total_numbers (f : Event -> N) (g : uint256 -> N) (log : list Event) :
  (forall e, List.In e log ->
     match proposalId e with
     | Some id => f e = g id
     | None => f e = 0
     end) ->
  total f log = sum_over g (numbers proposalId log).
Proof.
  induction log as [|e log IH]; intros H; [reflexivity|].
  unfold total, numbers, sum_over in *. simpl.
  pose proof (H e (or_introl eq_refl)) as He.
  rewrite (IH (fun x Hx => H x (or_intror Hx))).
  destruct (proposalId e); simpl; rewrite He; reflexivity.
Qed.

Lemma open_contribution_stored (st : State) (asset debtor creditor : address) :
  ProposalInv st -> StoreInv st ->
  forall e, List.In e (event_log st) ->
    match proposalId e with
    | Some id => open_contribution (event_log st) asset debtor creditor e
                 = stored_contribution st asset debtor creditor id
    | None => open_contribution (event_log st) asset debtor creditor e = 0
    end.
Proof.
  intros Hp Hs e Hin. unfold event_log in Hin. apply in_rev in Hin.
  unfold open_contribution.
  rewrite unresolvedEvent_resolutions. unfold event_log.
  destruct e as [x1 x2 x3 x4 x5 x6 x7|x1 x2 x3 x4|id c d t a m|x|x|x1 x2];
    simpl; try reflexivity.
  rewrite resolutions_rev. unfold stored_contribution.
  destruct (resolutions id (events st)) as [|n] eqn:R; simpl.
  - rewrite (unresolved_is_stored _ Hs _ _ _ _ _ _ Hin R). reflexivity.
  - assert (Hc : isOpen st id = false)
      by (apply resolved_not_open; [exact Hp|lia]).
    unfold isOpen in Hc. rewrite Hc. reflexivity.
Qed.

Lemma reachable_proposalIds (txs : list Tx) :
  numbers proposalId (event_log (run txs init))
  = one_to (pendingDebtCounter (run txs init)).
Proof.
  unfold event_log. rewrite numbers_rev. apply counts_down_rev.
  apply (run_invariant (fun s =>
    counts_down_from (pendingDebtCounter s)
                     (numbers proposalId (events s)))).
  - exact call_proposalIds.
  - reflexivity.
Qed.

Lemma open_total_stored (txs : list Tx) (token d c : address) :
  let st := run txs init in
  total (open_contribution (event_log st) token d c) (event_log st)
  = stored_pending st token d c.
Proof.
  intros st. destruct (reachable_StoreInv txs) as [Hp Hs]. fold st in Hp, Hs.
  unfold stored_pending, st.
  rewrite <- reachable_proposalIds. apply total_numbers.
  apply open_contribution_stored; assumption.
Qed.

Lemma pendingOwed_stored (txs : list Tx) (token user1 user2 : address) :
  pendingOwed (balance (run txs init) token user1 user2)
  = stored_pending (run txs init) token user1 user2.
Proof.
  destruct (pending_totals (event_log (run txs init)) token user1 user2)
    as [H1 _].
  unfold balance. cbn [pendingOwed]. rewrite H1. apply open_total_stored.
Qed.

(** X13.  In every state the contract can reach, the pending figures of
    the [balance] command, which the bot rebuilds from the event log, are
    what the contract's own store holds: [pendingOwed] is the sum of the
    amounts of the stored proposals 1 .. [pendingDebtCounter] that exist
    and have debtor [user1], creditor [user2] and the token, and
    [pendingOwing] the same with the two wallets exchanged. *)
Theorem pending_balance_is_stored_balance (txs : list Tx)
    (token user1 user2 : address) :
  let st := run txs init in
  let b := balance st token user1 user2 in
  pendingOwed b = stored_pending st token user1 user2 /\
  (user1 <> user2 -> pendingOwing b = stored_pending st token user2 user1).
Proof.
  intros st b.
  destruct (pending_totals (event_log st) token user1 user2) as [H1 H2].
  split.
  - unfold b, balance. cbn [pendingOwed]. rewrite H1.
    apply open_total_stored.
  - intros Hne. unfold b, balance. cbn [pendingOwing]. rewrite (H2 Hne).
    apply open_total_stored.
Qed.

Lemma pending_balance_is_stored_balance_witness :
  let txs := [mkTx 1 (CallProposeDebt 2 9 1 50 "rent");
              mkTx 3 (CallProposeDebt 1 9 2 7 "taxi");
              mkTx 6 (CallRejectDebt 1 1)] in
  (1 : address) <> 2 /\
  pendingOwing (balance (run txs init) 9 1 2)
  = stored_pending (run txs init) 9 2 1.
Proof.
  intros txs. assert (Hne : (1 : address) <> 2) by discriminate.
  split; [exact Hne|].
  exact (proj2 (pending_balance_is_stored_balance txs 9 1 2) Hne).
Defined.

(** X14.  The two parties see the same figures, mirrored: for two
    different wallets and any state and log, the [balance] command of one
    against the other gives as [debtOwed] and [pendingOwed] what the
    command of the other against the first gives as [debtOwing] and
    [pendingOwing], and the other way round. *)
Theorem balance_mirrored (st : State) (token user1 user2 : address) :
  user1 <> user2 ->
  let b12 := balance st token user1 user2 in
  let b21 := balance st token user2 user1 in
  debtOwed b12 = debtOwing b21 /\ debtOwing b12 = debtOwed b21 /\
  pendingOwed b12 = pendingOwing b21 /\ pendingOwing b12 = pendingOwed b21.
Proof.
  intros Hne b12 b21.
  destruct (pending_totals (event_log st) token user1 user2) as [A1 A2].
  destruct (pending_totals (event_log st) token user2 user1) as [B1 B2].
  split; [reflexivity|]. split; [reflexivity|].
  unfold b12, b21, balance. cbn [pendingOwed pendingOwing]. split.
  - rewrite A1, (B2 (not_eq_sym Hne)). reflexivity.
  - rewrite (A2 Hne), B1. reflexivity.
Qed.

Lemma balance_mirrored_witness :
  (1 : address) <> 2 /\
  pendingOwed (balance proposed 9 1 2) = pendingOwing (balance proposed 9 2 1).
Proof.
  assert (Hne : (1 : address) <> 2) by discriminate.
  split; [exact Hne|].
  exact (proj1 (proj2 (proj2 (balance_mirrored proposed 9 1 2 Hne)))).
Defined.

(** ** How a proposal moves the pending figure *)

Lemma run_snoc (txs : list Tx) (ts : uint256) (c : Call) (st' : State) :
  call ts c (run txs init) = Ok st' ->
  run (txs ++ [mkTx ts c]) init = st'.
Proof.
  intros H. unfold run. rewrite fold_left_app.
  change (fold_left transact txs init) with (run txs init).
  cbn [fold_left]. unfold transact. cbn [tx_timestamp tx_call].
  rewrite H. reflexivity.
Qed.

Lemma one_to_succ (n : uint256) :
  one_to (n + 1) = (one_to n ++ [n + 1])%list.
Proof.
  unfold one_to. replace (N.to_nat (n + 1)) with (S (N.to_nat n)) by lia.
  rewrite seq_S, map_app. simpl. do 2 f_equal. lia.
Qed.

Lemma in_one_to (n id : uint256) :
  List.In id (one_to n) <-> 1 <= id <= n.
Proof.
  unfold one_to. rewrite in_map_iff. split.
  - intros (k & <- & Hk). apply in_seq in Hk. lia.
  - intros H. exists (N.to_nat id). split; [lia|]. apply in_seq. lia.
Qed.

Lemma NoDup_one_to (n : uint256) : List.NoDup (one_to n).
Proof.
  unfold one_to. apply Finite.Injective_map_NoDup; [|apply seq_NoDup].
  intros x y. apply Nat2N.inj.
Qed.

Lemma sum_over_app (g : uint256 -> N) (l1 l2 : list uint256) :
  sum_over g (l1 ++ l2) = sum_over g l1 + sum_over g l2.
Proof.
  unfold sum_over. induction l1 as [|i l1 IH]; simpl; [reflexivity|].
  rewrite IH. lia.
Qed.

Lemma sum_over_ext (g g' : uint256 -> N) (l : list uint256) :
  (forall id, List.In id l -> g id = g' id) -> sum_over g l = sum_over g' l.
Proof.
  unfold sum_over. induction l as [|i l IH]; intros H; simpl; [reflexivity|].
  rewrite (H i (or_introl eq_refl)), IH; [reflexivity|].
  intros id Hid. apply H. right. exact Hid.
Qed.

Lemma sum_over_without (g g' : uint256 -> N) (id0 : uint256)
    (l : list uint256) :
  List.NoDup l -> List.In id0 l -> g' id0 = 0 ->
  (forall id, id <> id0 -> g' id = g id) ->
  sum_over g l = sum_over g' l + g id0.
Proof.
  intros Hnd Hin Hzero Hsame. induction Hnd as [|i l Hni Hnd IH].
  - contradiction.
  - change (sum_over g (i :: l)) with (g i + sum_over g l).
    change (sum_over g' (i :: l)) with (g' i + sum_over g' l).
    destruct Hin as [->|Hin].
    + rewrite Hzero, (sum_over_ext g g' l); [lia|].
      intros id Hid. symmetry. apply Hsame. congruence.
    + rewrite (IH Hin), (Hsame i) by congruence. lia.
Qed.

(** X15.  A proposal shows up in the pending figure at once and nowhere
    else.  In a state the contract can reach, after a [proposeDebt] that
    returns, the [balance] command gives the same confirmed figures for
    every token and pair, and [pendingOwed] has grown by the proposed
    amount for the proposal's token with its debtor as [user1] and its
    creditor as [user2], and is unchanged for every other query. *)
Theorem pending_after_propose (txs : list Tx) (creditor token debtor : address)
    (amount : uint256) (memo : string) (st' : State) :
  let st := run txs init in
  proposeDebt creditor token debtor amount memo st = Ok st' ->
  forall t user1 user2,
    debtOwed (balance st' t user1 user2) = debtOwed (balance st t user1 user2)
    /\ debtOwing (balance st' t user1 user2)
       = debtOwing (balance st t user1 user2)
    /\ pendingOwed (balance st' t user1 user2)
       = pendingOwed (balance st t user1 user2)
         + (if (debtor =? user1) && (creditor =? user2) && (token =? t)
            then amount else 0).
Proof.
  intros st H t user1 user2.
  pose proof (run_snoc txs 0 (CallProposeDebt creditor token debtor amount memo)
                st' H) as Hreach.
  pose proof (pendingOwed_stored txs t user1 user2) as Hold.
  pose proof (pendingOwed_stored
                (txs ++ [mkTx 0 (CallProposeDebt creditor token debtor amount
                                                 memo)]) t user1 user2)
    as Hnew.
  rewrite Hreach in Hnew. fold st in Hold.
  rewrite Hnew, Hold.
  apply proposeDebt_effect in H as (_ & _ & ->).
  split; [reflexivity|]. split; [reflexivity|].
  unfold stored_pending. cbn [pendingDebtCounter emit set_pendingDebt
                              set_pendingDebtCounter].
  rewrite one_to_succ, sum_over_app. f_equal.
  - apply sum_over_ext. intros id Hid. apply in_one_to in Hid.
    unfold stored_contribution. cbn [pendingDebts emit set_pendingDebt
                                     set_pendingDebtCounter].
    rewrite fn_lookup_insert_ne by lia. reflexivity.
  - unfold sum_over, stored_contribution. simpl.
    rewrite fn_lookup_insert. simpl. lia.
Qed.

Lemma pending_after_propose_witness :
  let st' := or_unchanged owing (proposeDebt 2 9 1 5 "tea" owing) in
  proposeDebt 2 9 1 5 "tea" owing = Ok st' /\
  pendingOwed (balance st' 9 1 2) = pendingOwed (balance owing 9 1 2) + 5.
Proof.
  intros st'.
  assert (H : proposeDebt 2 9 1 5 "tea" owing = Ok st')
    by (vm_compute; reflexivity).
  split; [exact H|].
  exact (proj2 (proj2 (pending_after_propose
    [mkTx 1 (CallProposeDebt 2 9 1 50 "rent"); mkTx 2 (CallConfirmDebt 1 1)]
    2 9 1 5 "tea" st' H 9 1 2))).
Defined.

Lemma stored_pending_after_resolve (st st' : State) (id0 : uint256) :
  ProposalInv st -> StoreInv st -> isOpen st id0 = true ->
  pendingDebtCounter st' = pendingDebtCounter st ->
  pendingDebts st' = <[id0 := PendingDebt.zero]> (pendingDebts st) ->
  forall t d c,
    stored_pending st t d c
    = stored_pending st' t d c + stored_contribution st t d c id0.
Proof.
  intros Hp Hs Hopen Hc Hpd t d c. unfold stored_pending. rewrite Hc.
  apply sum_over_without.
  - apply NoDup_one_to.
  - apply in_one_to.
    destruct (open_is_logged _ Hs id0 Hopen) as (x1 & x2 & x3 & x4 & x5 & H).
    apply (logged_ids_allocated _ Hs _ id0 H). reflexivity.
  - unfold stored_contribution. rewrite Hpd, fn_lookup_insert. reflexivity.
  - intros id Hne. unfold stored_contribution.
    rewrite Hpd, fn_lookup_insert_ne by congruence. reflexivity.
Qed.

(** X16.  Confirming or rejecting a proposal takes exactly that proposal
    out of the pending figures.  In a state the contract can reach, after
    a [confirmDebt] or a [rejectDebt] of [id] that returns, [pendingOwed]
    of every [balance] query is what it was minus what the stored proposal
    [id] contributed to that query: its amount for its own token, debtor
    and creditor, nothing for any other. *)
Theorem pending_after_resolution (txs : list Tx) (sender id ts : uint256)
    (st' : State) :
  let st := run txs init in
  confirmDebt sender id ts st = Ok st' \/ rejectDebt sender id st = Ok st' ->
  forall t user1 user2,
    pendingOwed (balance st t user1 user2)
    = pendingOwed (balance st' t user1 user2)
      + stored_contribution st t user1 user2 id.
Proof.
  intros st H t user1 user2.
  destruct (reachable_StoreInv txs) as [Hp Hs]. fold st in Hp, Hs.
  pose proof (pendingOwed_stored txs t user1 user2) as Hold.
  fold st in Hold. rewrite Hold.
  destruct H as [H|H].
  - pose proof (run_snoc txs ts (CallConfirmDebt sender id) st' H) as Hreach.
    pose proof (pendingOwed_stored
                  (txs ++ [mkTx ts (CallConfirmDebt sender id)]) t user1 user2)
      as Hnew.
    rewrite Hreach in Hnew. rewrite Hnew.
    apply confirmDebt_effect in H as (Hopen & _ & s1 & Hadd & ->).
    apply addDebt_effect in Hadd
      as (_ & _ & _ & _ & _ & _ & _ & Hpe & Hc & _).
    apply stored_pending_after_resolve; try assumption.
    cbn. rewrite Hpe. reflexivity.
  - pose proof (run_snoc txs ts (CallRejectDebt sender id) st' H) as Hreach.
    pose proof (pendingOwed_stored
                  (txs ++ [mkTx ts (CallRejectDebt sender id)]) t user1 user2)
      as Hnew.
    rewrite Hreach in Hnew. rewrite Hnew.
    apply rejectDebt_effect in H as (Hopen & _ & ->).
    apply stored_pending_after_resolve; try assumption; reflexivity.
Qed.

Lemma pending_after_resolution_witness :
  let st' := or_unchanged proposed (rejectDebt 1 1 proposed) in
  rejectDebt 1 1 proposed = Ok st' /\
  pendingOwed (balance proposed 9 2 1)
  = pendingOwed (balance st' 9 2 1) + 7.
Proof.
  intros st'.
  assert (H : rejectDebt 1 1 proposed = Ok st') by (vm_compute; reflexivity).
  split; [exact H|].
  exact (pending_after_resolution [mkTx 1 (CallProposeDebt 1 9 2 7 "taxi")]
           1 1 0 st' (or_intror H) 9 2 1).
Defined.

(** ** The [history] command *)

Lemma filter_either (f g : Event -> bool) (l : list Event) :
  (forall e, f e = true -> g e = true -> False) ->
  Permutation (List.filter f l ++ List.filter g l)
              (List.filter (fun e => f e || g e) l).
Proof.
  intros Hdisj. induction l as [|e l IH]; simpl; [constructor|].
  destruct (f e) eqn:F, (g e) eqn:G; simpl.
  - destruct (Hdisj e F G).
  - constructor. exact IH.
  - symmetry. apply Permutation_cons_app. symmetry. exact IH.
  - exact IH.
Qed.

Lemma length_zero_nil {A : Type} (l : list A) :
  (List.length l =? 0)%nat = true <-> l = [].
Proof. destruct l; simpl; split; intros; congruence. Qed.

(** X17.  What the [history] command lists for two different wallets.
    Its confirmed section holds every [DebtAdded] event of the log between
    the two, in either direction, each exactly once and no other event
    (first those in which the author is the debtor, then the others); its
    pending section holds, in log order, the [DebtProposed] events between
    the two, on any token, that have no resolution event.  The reply is
    "No history found" exactly when both are empty. *)
Theorem history_lists (st : State) (author target : address) :
  author <> target ->
  let log := event_log st in
  let between e :=
    isDebtAddedBetween author target e || isDebtAddedBetween target author e in
  let open e :=
    unresolvedEvent log e && relevantProposedEvent author target e in
  (history st author target = None <->
   List.filter between log = [] /\ List.filter open log = []) /\
  forall confirmed pending,
    history st author target = Some (confirmed, pending) ->
    Permutation confirmed (List.filter between log) /\
    confirmed = (List.filter (isDebtAddedBetween author target) log
                 ++ List.filter (isDebtAddedBetween target author) log)%list /\
    pending = List.filter open log.
Proof.
  intros Hne log between open.
  assert (Hperm :
    Permutation (List.filter (isDebtAddedBetween author target) log
                 ++ List.filter (isDebtAddedBetween target author) log)
                (List.filter between log)).
  { apply filter_either. intros e F G. destruct e; try discriminate.
    simpl in F, G. apply andb_true_iff in F as [F1 _], G as [G1 _].
    apply N.eqb_eq in F1, G1. congruence. }
  assert (Hpend :
    List.filter (unresolvedEvent log)
      (List.filter (relevantProposedEvent author target)
         (List.filter isDebtProposed log))
    = List.filter open log).
  { rewrite !filter_both. apply List.filter_ext. intros e. unfold open.
    destruct e; simpl; rewrite ?andb_false_r; try reflexivity.
    rewrite andb_true_r. reflexivity. }
  unfold history. fold log. rewrite Hpend.
  set (confirmedDebtEvents := (_ ++ _)%list) in *.
  destruct (List.length confirmedDebtEvents =? 0)%nat eqn:E1;
    [destruct (List.length (List.filter open log) =? 0)%nat eqn:E2|]; simpl.
  - apply length_zero_nil in E1, E2. split; [|discriminate].
    split; [intros _|reflexivity]. split; [|exact E2].
    rewrite E1 in Hperm. apply Permutation_nil in Hperm. exact Hperm.
  - split.
    + split; [discriminate|]. intros [_ H]. rewrite H in E2. discriminate.
    + intros confirmed pending [= <- <-]. repeat split. exact Hperm.
  - split.
    + split; [discriminate|]. intros [H _]. rewrite H in Hperm.
      apply Permutation_sym, Permutation_nil in Hperm.
      rewrite Hperm in E1. discriminate.
    + intros confirmed pending [= <- <-]. repeat split. exact Hperm.
Qed.

Lemma history_lists_witness :
  (1 : address) <> 2 /\
  history agreed 1 2 = Some ([DebtAdded 1 2 1 9 7 "taxi" 2], []).
Proof.
  assert (Hne : (1 : address) <> 2) by discriminate.
  split; [exact Hne|].
  destruct (history agreed 1 2) as [[confirmed pending]|] eqn:E.
  - destruct (proj2 (history_lists agreed 1 2 Hne) confirmed pending E)
      as (_ & -> & ->). reflexivity.
  - discriminate E.
Defined.

Lemma total_plus (f g : Event -> N) (l : list Event) :
  total f l + total g l = total (fun e => f e + g e) l.
Proof.
  unfold total. induction l as [|e l IH]; simpl; [reflexivity|].
  rewrite <- IH. lia.
Qed.

(** X18.  The [balance] and [history] commands agree on what is pending:
    for two different wallets and any token, the two pending figures of
    [balance] together are the sum of the amounts of the pending entries
    that [history] lists for the pair on that token. *)
Theorem balance_pending_is_history_pending (st : State)
    (token author target : address) :
  author <> target ->
  let b := balance st token author target in
  let pending :=
    match history st author target with
    | Some (_, pending) => pending
    | None => []
    end in
  pendingOwed b + pendingOwing b
  = total amount_of (List.filter (onToken token) pending).
Proof.
  intros Hne b pending.
  destruct (pending_totals (event_log st) token author target) as [H1 H2].
  unfold b, balance. cbn [pendingOwed pendingOwing].
  rewrite H1, (H2 Hne), total_plus.
  assert (Hpending :
    pending = List.filter (unresolvedEvent (event_log st))
                (List.filter (relevantProposedEvent author target)
                   (List.filter isDebtProposed (event_log st)))).
  { unfold pending, history.
    destruct (List.length (_ ++ _) =? 0)%nat; simpl; [|reflexivity].
    destruct (List.length _ =? 0)%nat eqn:E; [|reflexivity].
    apply length_zero_nil in E. symmetry. exact E. }
  rewrite Hpending, !total_filter.
  apply total_ext. intros e. unfold open_contribution.
  destruct (unresolvedEvent (event_log st) e) eqn:U;
    destruct e; simpl; try reflexivity; try discriminate;
    unfold onToken; simpl;
    destruct (N.eqb_spec debtor author), (N.eqb_spec creditor target),
      (N.eqb_spec token0 token), (N.eqb_spec creditor author),
      (N.eqb_spec debtor target); simpl; try reflexivity; try lia;
      congruence.
Qed.

Lemma balance_pending_is_history_pending_witness :
  (1 : address) <> 2 /\
  pendingOwed (balance proposed 9 1 2) + pendingOwing (balance proposed 9 1 2)
  = 7.
Proof.
  assert (Hne : (1 : address) <> 2) by discriminate.
  split; [exact Hne|].
  exact (balance_pending_is_history_pending proposed 9 1 2 Hne).
Defined.

(** * The ledger can be rebuilt from the log *)

(** ** Every ledger mutation is a confirmed proposal *)

Lemma traceable_frame (e : Event) (log : list Event) :
  actionId_of e = None -> (forall id, isDebtConfirmed id e = false) ->
  traceable None log -> traceable None (e :: log).
Proof.
  intros Ha Hc H. destruct e; simpl; try exact H.
  - discriminate.
  - specialize (Hc pendingDebtId). simpl in Hc.
    rewrite N.eqb_refl in Hc. discriminate.
Qed.

Lemma call_traceable (ts : uint256) (c : Call) (st st' : State) :
  call ts c st = Ok st' ->
  (ProposalInv st /\ StoreInv st) /\ traceable None (events st) ->
  (ProposalInv st' /\ StoreInv st') /\ traceable None (events st').
Proof.
  apply (call_rel (fun s s' =>
    (ProposalInv s /\ StoreInv s) /\ traceable None (events s) ->
    (ProposalInv s' /\ StoreInv s') /\ traceable None (events s'))).
  - auto.
  - auto.
  - intros sender token debtor amount memo s s' H [Hinv Ht].
    split; [exact (call_StoreInv 0 (CallProposeDebt _ _ _ _ _) _ _ H Hinv)|].
    apply proposeDebt_effect in H as (_ & _ & ->).
    apply traceable_frame; [reflexivity|reflexivity|exact Ht].
  - intros sender id t s s' H [Hinv Ht].
    split; [exact (call_StoreInv t (CallConfirmDebt _ _) _ _ H Hinv)|].
    destruct Hinv as [Hp Hs].
    apply confirmDebt_effect in H as (Hopen & _ & s1 & Hadd & ->).
    apply addDebt_effect in Hadd as (_ & _ & _ & _ & _ & _ & Hev & _).
    cbn [events emit set_pendingDebt]. rewrite Hev. cbn [traceable].
    split; [|exact Ht].
    destruct (open_is_logged _ Hs id Hopen) as (c0 & d & tk & a & m & Hin).
    rewrite (unresolved_is_stored _ Hs _ _ _ _ _ _ Hin
               (open_not_resolved _ Hp _ Hopen)).
    exact Hin.
  - intros sender id s s' H [Hinv Ht].
    split; [exact (call_StoreInv 0 (CallRejectDebt _ _) _ _ H Hinv)|].
    apply rejectDebt_effect in H as (_ & _ & ->).
    apply traceable_frame; [reflexivity|reflexivity|exact Ht].
  - intros discordId w s s' H [Hinv Ht].
    split; [exact (call_StoreInv 0 (CallRegisterUser _ _) _ _ H Hinv)|].
    apply registerUser_effect in H as (_ & ->).
    apply traceable_frame; [reflexivity|reflexivity|exact Ht].
  - intros sender token creditor s _ [[Hp Hs] Ht].
    split; [|exact Ht].
    split; [eapply ProposalInv_frame|eapply StoreInv_frame];
      try eassumption; try reflexivity; left; reflexivity.
  - intros sender token creditor v s [[Hp Hs] Ht].
    split; [|apply traceable_frame; [reflexivity|reflexivity|exact Ht]].
    split; [eapply ProposalInv_frame|eapply StoreInv_frame];
      try eassumption; try reflexivity;
      right; eexists; repeat split; reflexivity.
Qed.

Lemma traceable_split (log : list Event) :
  forall confirming newer older a d c t v m ts,
    traceable confirming log ->
    log = (newer ++ DebtAdded a d c t v m ts :: older)%list ->
    exists id,
      List.In (DebtProposed id c d t v m) older /\
      match newer with
      | [] => confirming = Some id
      | _ => exists newer', newer = (newer' ++ [DebtConfirmed id])%list
      end.
Proof.
  induction log as [|e log IH]; intros confirming newer older a d c t v m ts
    Ht Hsplit.
  - destruct newer; discriminate.
  - destruct newer as [|x newer]; simpl in Hsplit; injection Hsplit as -> ->.
    + simpl in Ht. destruct confirming as [id|]; [|contradiction].
      exists id. split; [apply Ht|reflexivity].
    + assert (Hnext : exists confirming', traceable confirming'
                 (newer ++ DebtAdded a d c t v m ts :: older) /\
                 (confirming' <> None -> exists id,
                     x = DebtConfirmed id /\ confirming' = Some id)).
      { destruct x, confirming; simpl in Ht; try contradiction;
          try (exists None; split; [exact Ht|congruence]).
        - exists None. split; [apply Ht|congruence].
        - exists (Some pendingDebtId). split; [exact Ht|]. eauto. }
      destruct Hnext as (confirming' & Ht' & Hx).
      destruct (IH confirming' newer older a d c t v m ts Ht' eq_refl)
        as (id & Hin & Hshape).
      exists id. split; [exact Hin|].
      destruct newer as [|y newer].
      * destruct Hx as (id' & -> & E); [congruence|].
        exists []. simpl. congruence.
      * destruct Hshape as (newer' & ->). exists (x :: newer'). reflexivity.
Qed.

(** X19.  Every mutation of the ledger by [addDebt] can be traced to a
    proposal its debtor confirmed.  In the log of every state the contract
    can reach, each [DebtAdded] event is followed at once by the
    [DebtConfirmed] event of a proposal id, and the [DebtProposed] event
    of that id stands earlier in the log with the same creditor, debtor,
    token, amount and memo. *)
Theorem every_added_debt_was_proposed (txs : list Tx)
    (before after : list Event) (a : uint256) (d c t : address) (v : uint256)
    (m : string) (ts : uint256) :
  event_log (run txs init)
  = (before ++ DebtAdded a d c t v m ts :: after)%list ->
  exists id rest,
    after = DebtConfirmed id :: rest /\
    List.In (DebtProposed id c d t v m) before.
Proof.
  intros Hlog.
  assert (Ht : traceable None (events (run txs init))).
  { apply (run_invariant (fun s =>
      (ProposalInv s /\ StoreInv s) /\ traceable None (events s))).
    - exact call_traceable.
    - split; [split; [exact ProposalInv_init|exact StoreInv_init]|].
      reflexivity. }
  assert (Hev : events (run txs init)
                = (rev after ++ DebtAdded a d c t v m ts :: rev before)%list).
  { unfold event_log in Hlog. apply (f_equal (@rev Event)) in Hlog.
    rewrite rev_involutive in Hlog. rewrite Hlog, rev_app_distr. simpl.
    rewrite <- app_assoc. reflexivity. }
  destruct (traceable_split _ _ _ _ _ _ _ _ _ _ _ Ht Hev) as (id & Hin & Hs).
  apply in_rev in Hin.
  destruct (rev after) as [|x l] eqn:E; [discriminate|].
  destruct Hs as (newer' & Hn). exists id, (rev newer').
  split; [|exact Hin].
  rewrite <- (rev_involutive after), E, Hn, rev_app_distr. reflexivity.
Qed.

Lemma every_added_debt_was_proposed_witness :
  exists id rest,
    [DebtConfirmed 1] = DebtConfirmed id :: rest /\
    List.In (DebtProposed id 1 2 9 7 "taxi") [DebtProposed 1 1 2 9 7 "taxi"].
Proof.
  exact (every_added_debt_was_proposed
           [mkTx 1 (CallProposeDebt 1 9 2 7 "taxi");
            mkTx 2 (CallConfirmDebt 2 1)]
           [DebtProposed 1 1 2 9 7 "taxi"] [DebtConfirmed 1]
           1 2 1 9 7 "taxi" 2 eq_refl).
Defined.

(** ** The entries are what the log adds up to *)

Lemma net_addDebt (token d c : address) (amount : uint256) (memo : string)
    (ts : uint256) (st st' : State) (asset A B : address) :
  addDebt token d c amount memo ts st = Ok st' -> A <> B ->
  net asset A B st'
  = Z.add (net asset A B st)
          (signed_event asset A B
             (DebtAdded (debtActionCounter st + 1) d c token amount memo ts)).
Proof.
  intros H Hne.
  apply addDebt_effect in H as (Hdc_ne & Hpos & Hcd & Hdc & Hother & _).
  unfold net, signed_event.
  destruct (N.eqb_spec token asset) as [->|Ht]; simpl.
  2: { rewrite !Hother by (intros [? _]; congruence). lia. }
  destruct (N.eqb_spec d A) as [HdA|HdA], (N.eqb_spec c B) as [HcB|HcB],
           (N.eqb_spec d B) as [HdB|HdB], (N.eqb_spec c A) as [HcA|HcA];
    simpl; subst; try congruence;
    try (rewrite Hcd, Hdc;
         destruct (N.leb_spec amount (debts st asset B A));
         destruct (N.leb_spec amount (debts st asset A B)); lia);
    rewrite !Hother by (intros (_ & [[? ?]|[? ?]]); congruence); lia.
Qed.

Lemma net_zeroed (token sender creditor : address) (st : State)
    (asset A B : address) :
  A <> B ->
  net asset A B (set_debt token sender creditor 0 st)
  = Z.add (net asset A B st)
          (signed_event asset A B
             (DebtSettled sender creditor token
                          (debts st token sender creditor))).
Proof.
  intros Hne. unfold net, signed_event. rewrite !debts_set_debt.
  destruct (N.eqb_spec token asset) as [->|Ht]; simpl.
  2: { repeat destruct (decide _); try tauto; lia. }
  destruct (N.eqb_spec sender A) as [HdA|HdA],
           (N.eqb_spec creditor B) as [HcB|HcB],
           (N.eqb_spec sender B) as [HdB|HdB],
           (N.eqb_spec creditor A) as [HcA|HcA];
    simpl; subst; try congruence;
    repeat destruct (decide _); try tauto; try lia.
Qed.

Lemma call_transfer_unlogged (ts : uint256) (asset A B : address) :
  A <> B ->
  (forall c st st', call ts c st = Ok st' ->
                    unlogged asset A B st' = unlogged asset A B st) /\
  (forall t st success st', transferFrom ts t st = Ok (success, st') ->
                            unlogged asset A B st' = unlogged asset A B st).
Proof.
  intros Hne. apply Call_Transfer_ind; simpl.
  - intros sender token debtor amount memo st st' H.
    apply proposeDebt_effect in H as (_ & _ & ->). reflexivity.
  - intros sender id st st' H.
    apply confirmDebt_effect in H as (_ & _ & s1 & Hadd & ->).
    pose proof (net_addDebt _ _ _ _ _ _ _ _ asset A B Hadd Hne) as Hnet.
    apply addDebt_effect in Hadd as (_ & _ & _ & _ & _ & _ & Hev & _).
    unfold unlogged in *. unfold net in *.
    cbn [events debts emit set_pendingDebt]. rewrite Hev.
    cbn [log_net fold_right]. fold (log_net asset A B (events st)).
    cbn [signed_event] in *. lia.
  - intros sender id st st' H.
    apply rejectDebt_effect in H as (_ & _ & ->). reflexivity.
  - intros sender token creditor transfer IH st st' H.
    apply settleDebt_effect in H as (Hpos & success & st2 & Hext & ->).
    apply IH in Hext.
    pose proof (net_zeroed token sender creditor st asset A B Hne) as Hz.
    unfold unlogged in *. unfold net in *.
    cbn [events debts emit] in *.
    cbn [log_net fold_right]. fold (log_net asset A B (events st2)).
    change (events (set_debt token sender creditor 0 st)) with (events st)
      in Hext.
    lia.
  - intros discordId w st st' H.
    apply registerUser_effect in H as (_ & ->). reflexivity.
  - intros success st b st' [= <- <-]. reflexivity.
  - discriminate.
  - intros inner IHc rest IHt st success st' H.
    rewrite (IHt _ _ _ H).
    destruct (call ts inner st) as [st1|r] eqn:E; simpl;
      [exact (IHc _ _ E)|reflexivity].
Qed.

Lemma log_net_app (asset A B : address) (l1 l2 : list Event) :
  log_net asset A B (l1 ++ l2)
  = (log_net asset A B l1 + log_net asset A B l2)%Z.
Proof.
  unfold log_net. induction l1 as [|e l1 IH]; simpl; [reflexivity|].
  rewrite IH. lia.
Qed.

Lemma log_net_rev (asset A B : address) (l : list Event) :
  log_net asset A B (rev l) = log_net asset A B l.
Proof.
  induction l as [|e l IH]; simpl; [reflexivity|].
  rewrite log_net_app, IH. unfold log_net. simpl. lia.
Qed.

(** X20.  The ledger holds nothing the log does not account for.  In every
    state the contract can reach, for two different accounts and any
    asset, add up the log: each [DebtAdded] event between the two counts
    its amount towards its debtor owing, each [DebtSettled] event its
    amount against.  If the sum for "A owes B" is positive, the entry
    (A,B) is that sum and the entry (B,A) is zero; if negative, the entry
    (B,A) is its absolute value and (A,B) is zero; if zero, both are. *)
Theorem ledger_is_sum_of_log (txs : list Tx) (asset A B : address) :
  A <> B ->
  let st := run txs init in
  let owed := log_net asset A B (event_log st) in
  debts st asset A B = Z.to_N owed /\ debts st asset B A = Z.to_N (- owed).
Proof.
  intros Hne st owed.
  assert (Hbooks : unlogged asset A B st = 0%Z).
  { apply (run_invariant (fun s => unlogged asset A B s = 0%Z)).
    - intros ts c s s' H Hs.
      rewrite (proj1 (call_transfer_unlogged ts asset A B Hne) _ _ _ H).
      exact Hs.
    - reflexivity. }
  assert (Hinv : NettingInv st).
  { apply (run_invariant NettingInv).
    - exact call_NettingInv.
    - intros a x y. left. reflexivity. }
  unfold unlogged, net in Hbooks. unfold owed, event_log.
  rewrite log_net_rev. destruct (Hinv asset A B); lia.
Qed.

Lemma ledger_is_sum_of_log_witness :
  let txs := [mkTx 1 (CallProposeDebt 2 9 1 50 "rent");
              mkTx 2 (CallConfirmDebt 1 1);
              mkTx 3 (CallProposeDebt 1 9 2 20 "taxi");
              mkTx 4 (CallConfirmDebt 2 2);
              mkTx 5 (CallSettleDebt 1 9 2 (Returns true));
              mkTx 6 (CallProposeDebt 1 9 2 7 "tea");
              mkTx 7 (CallConfirmDebt 2 3)] in
  (1 : address) <> 2 /\
  debts (run txs init) 9 1 2
  = Z.to_N (log_net 9 1 2 (event_log (run txs init))) /\
  debts (run txs init) 9 2 1
  = Z.to_N (- log_net 9 1 2 (event_log (run txs init))).
Proof.
  intros txs. assert (Hne : (1 : address) <> 2) by discriminate.
  split; [exact Hne|].
  exact (ledger_is_sum_of_log txs 9 1 2 Hne).
Defined.

(** * Further properties of the bot's helpers *)

(** ** Tokens *)

Lemma parse_listed_symbols (isAddress : string -> bool)
    (getAddress : string -> string) :
  isAddress "ETH" = false -> isAddress "USDC" = false ->
  parseTokenIdentifier isAddress getAddress "ETH"
  = Some (TokenInfo.Build "0x0000000000000000000000000000000000000000" 18
                          "ETH") /\
  parseTokenIdentifier isAddress getAddress "USDC"
  = Some (TokenInfo.Build "0x75faf114eafb1BDbe2F0316DF893fd58CE46AA4d" 6
                          "USDC").
Proof.
  intros HE HU. unfold parseTokenIdentifier. rewrite HE, HU.
  split; reflexivity.
Qed.

(** X21.  [getCurrencyTokenInfo] never fails and knows two answers.  As
    long as the library does not take the words ETH and USDC for
    addresses, a currency code that reads ETH or ETHER in any letter case
    gives the ETH entry (zero address, 18 decimals); every other code,
    listed in the [switch] or not, gives the USDC entry (6 decimals). *)
Theorem currency_is_eth_or_usdc (isAddress : string -> bool)
    (getAddress : string -> string) (currency : string) :
  isAddress "ETH" = false -> isAddress "USDC" = false ->
  getCurrencyTokenInfo isAddress getAddress currency
  = Some (if String.eqb (toUpperCase currency) "ETH"
             || String.eqb (toUpperCase currency) "ETHER"
          then TokenInfo.Build "0x0000000000000000000000000000000000000000"
                               18 "ETH"
          else TokenInfo.Build "0x75faf114eafb1BDbe2F0316DF893fd58CE46AA4d"
                               6 "USDC").
Proof.
  intros HE HU.
  destruct (parse_listed_symbols isAddress getAddress HE HU) as [PE PU].
  unfold getCurrencyTokenInfo. cbv zeta.
  generalize (toUpperCase currency). intros u.
  destruct (String.eqb_spec u "USD") as [->|_]; [exact PU|].
  destruct (String.eqb_spec u "USDC") as [->|_]; [exact PU|].
  destruct (String.eqb_spec u "ETH") as [->|_]; [exact PE|].
  destruct (String.eqb_spec u "ETHER") as [->|_]; [exact PE|].
  simpl. repeat destruct (_ || _); exact PU.
Qed.

Lemma currency_is_eth_or_usdc_witness :
  let isAddress := fun s : string => Nat.eqb (String.length s) 42 in
  isAddress "ETH" = false /\ isAddress "USDC" = false /\
  getCurrencyTokenInfo isAddress (fun s => s) "won"
  = Some (TokenInfo.Build "0x75faf114eafb1BDbe2F0316DF893fd58CE46AA4d" 6
                          "USDC").
Proof.
  intros isAddress. split; [reflexivity|]. split; [reflexivity|].
  exact (currency_is_eth_or_usdc isAddress (fun s => s) "won"
           eq_refl eq_refl).
Defined.








(** ** Network *)

(** X24.  The explorer link and the network name the bot prints side by
    side always agree.  For every setting of [RPC_URL] there is a link
    exactly when the name is one of the three public networks, and the
    link then points to the explorer of that network; a local, an unset
    and an unknown node get no link. *)
Theorem explorer_matches_network (RPC_URL : option string) (txHash : string) :
  let link := getBlockExplorerUrl RPC_URL txHash in
  let name := getNetworkName RPC_URL in
  (link = None
   <-> name = "Unknown" \/ name = "Local Development"
       \/ name = "Unknown Network") /\
  (link = Some ("https://etherscan.io/tx/" ++ txHash)
   <-> name = "Ethereum Mainnet") /\
  (link = Some ("https://sepolia.etherscan.io/tx/" ++ txHash)
   <-> name = "Sepolia Testnet") /\
  (link = Some ("https://goerli.etherscan.io/tx/" ++ txHash)
   <-> name = "Goerli Testnet").
Proof.
  unfold getBlockExplorerUrl, getNetworkName. cbv zeta.
  destruct (unset RPC_URL);
    [|destruct (includes "localhost" _ || includes "127.0.0.1" _);
      [|destruct (includes "mainnet" _);
        [|destruct (includes "sepolia" _);
          [|destruct (includes "goerli" _)]]]];
    simpl; repeat split; intros H;
    try discriminate; try reflexivity; try tauto;
    try (destruct H as [H|[H|H]]; discriminate).
Qed.

(** ** Registration *)

Lemma working_or_orphaned (st : State)
    (userPrivateKeys : address -> option string) (discordId : string) :
  let a := discordToWallet st discordId in
  (a = 0
   /\ getWalletForDiscordId st userPrivateKeys discordId = None
   /\ isOrphanedRegistration st userPrivateKeys discordId
      = OrphanCheck.Build false None)
  \/ (a <> 0 /\ held userPrivateKeys a = None
      /\ getWalletForDiscordId st userPrivateKeys discordId = None
      /\ isOrphanedRegistration st userPrivateKeys discordId
         = OrphanCheck.Build true (Some a))
  \/ (a <> 0 /\ exists key, held userPrivateKeys a = Some key
      /\ getWalletForDiscordId st userPrivateKeys discordId = Some (a, key)
      /\ isOrphanedRegistration st userPrivateKeys discordId
         = OrphanCheck.Build false None).
Proof.
  intros a. unfold getWalletForDiscordId, isOrphanedRegistration.
  fold a. destruct (N.eqb_spec a 0) as [Hz|Hnz].
  - left. auto.
  - right. destruct (held userPrivateKeys a) as [key|].
    + right. split; [exact Hnz|]. exists key. auto.
    + left. auto.
Qed.

(** X25.  The [register] command only sends a registration the contract
    accepts, and it registers once.  In any contract state, for an author
    with a non-empty id and a new wallet that is not the zero address, is
    not registered and comes with a non-empty key: the command never
    answers with a failure of the contract; when the id was free it
    registers the new wallet and the key is then held for it; and a second
    [register] of the same author answers that they are registered and
    changes nothing. *)
Theorem register_once (st : State)
    (userPrivateKeys : address -> option string)
    (authorId : string) (newWallet : address) (newKey : string) :
  authorId <> "" -> newWallet <> 0 -> newKey <> "" ->
  walletToDiscord st newWallet = "" ->
  let '(reply, keys, st') :=
    register st userPrivateKeys authorId newWallet newKey in
  reply <> RegistrationConflict /\
  (forall reason, reply <> RegistrationFailed reason) /\
  (discordToWallet st authorId = 0 ->
   reply = NewWalletSent /\
   discordToWallet st' authorId = newWallet /\
   getWalletForDiscordId st' keys authorId = Some (newWallet, newKey)) /\
  (reply = NewWalletSent ->
   forall otherWallet otherKey,
     register st' keys authorId otherWallet otherKey
     = (AlreadyRegistered, keys, st')).
Proof.
  intros Hid Hw Hk Hfree.
  assert (Hheld : held (<[newWallet := Some newKey]> userPrivateKeys)
                       newWallet = Some newKey).
  { unfold held. rewrite fn_lookup_insert.
    destruct (String.eqb_spec newKey ""); [contradiction|reflexivity]. }
  unfold register.
  destruct (working_or_orphaned st userPrivateKeys authorId)
    as [(Hz & -> & ->)|[(Hnz & _ & -> & ->)|(Hnz & key & _ & -> & ->)]];
    cbn [OrphanCheck.isOrphaned OrphanCheck.address].
  - assert (Hreg : registerUser authorId newWallet st
                   = Ok (emit (UserRegistered authorId newWallet)
                              (set_registration authorId newWallet st)))
      by (apply registerUser_effect; auto).
    rewrite Hreg.
    assert (Hnew : discordToWallet
                     (emit (UserRegistered authorId newWallet)
                           (set_registration authorId newWallet st)) authorId
                   = newWallet)
      by (cbn; apply fn_lookup_insert).
    assert (Hget : getWalletForDiscordId
                     (emit (UserRegistered authorId newWallet)
                           (set_registration authorId newWallet st))
                     (<[newWallet := Some newKey]> userPrivateKeys) authorId
                   = Some (newWallet, newKey)).
    { unfold getWalletForDiscordId. rewrite Hnew, Hheld.
      destruct (N.eqb_spec newWallet 0); [contradiction|reflexivity]. }
    split; [discriminate|]. split; [discriminate|].
    split; [auto|].
    intros _ otherWallet otherKey. unfold register. rewrite Hget.
    reflexivity.
  - split; [discriminate|]. split; [discriminate|].
    split; [intros Hz; contradiction|discriminate].
  - split; [discriminate|]. split; [discriminate|].
    split; [intros Hz; contradiction|discriminate].
Qed.

Lemma register_once_witness :
  let '(reply, keys, st') :=
    register proposed (fun _ => None) "alice" 11 "0xkey" in
  reply = NewWalletSent /\
  discordToWallet st' "alice" = 11 /\
  getWalletForDiscordId st' keys "alice" = Some (11, "0xkey").
Proof.
  assert (Hid : "alice" <> "") by discriminate.
  assert (Hw : (11 : address) <> 0) by discriminate.
  assert (Hk : "0xkey" <> "") by discriminate.
  pose proof (register_once proposed (fun _ => None) "alice" 11 "0xkey"
                Hid Hw Hk eq_refl) as H.
  destruct (register proposed (fun _ => None) "alice" 11 "0xkey")
    as [[reply keys] st'].
  destruct H as (_ & _ & H & _). exact (H eq_refl).
Defined.

(** X26.  A registration whose key the bot has lost cannot be repaired
    through the contract.  If an id is registered in a state the contract
    can reach and the bot holds no key for its wallet, then after any
    further transactions, and whatever keys the bot stores for other
    addresses (as [reset-wallet] does), [isOrphanedRegistration] still
    reports the same wallet, [getWalletForDiscordId] still finds none, and
    the contract refuses every new registration of that id. *)
Theorem orphaned_registration_stays (txs later : list Tx)
    (userPrivateKeys keys : address -> option string) (discordId : string)
    (a : address) :
  let st := run txs init in
  let st' := run later st in
  isOrphanedRegistration st userPrivateKeys discordId
  = OrphanCheck.Build true (Some a) ->
  held keys a = None ->
  isOrphanedRegistration st' keys discordId = OrphanCheck.Build true (Some a)
  /\ getWalletForDiscordId st' keys discordId = None
  /\ forall w, exists reason,
       registerUser discordId w st' = Err reason
       /\ (w <> 0 -> reason = DiscordIdRegistered).
Proof.
  intros st st' Horphan Hkeys.
  assert (Ha : discordToWallet st discordId = a /\ a <> 0).
  { destruct (working_or_orphaned st userPrivateKeys discordId)
      as [(_ & _ & E)|[(Hnz & _ & _ & E)|(_ & key & _ & _ & E)]];
      rewrite E in Horphan; try discriminate.
    injection Horphan as <-. split; [reflexivity|exact Hnz]. }
  destruct Ha as [Ha Hnz].
  assert (Ha' : discordToWallet st' discordId = a).
  { rewrite <- Ha.
    apply (proj1 (run_keeps_registrations later st)).
    unfold registered_id. congruence. }
  assert (Hnonempty : discordId <> "").
  { destruct (run_RegistryInv txs init RegistryInv_init) as [Hi _].
    apply (Hi discordId). unfold registered_id. fold st. congruence. }
  split; [|split].
  - unfold isOrphanedRegistration. rewrite Ha', Hkeys.
    destruct (N.eqb_spec a 0); [contradiction|reflexivity].
  - unfold getWalletForDiscordId. rewrite Ha', Hkeys.
    destruct (N.eqb_spec a 0); [contradiction|reflexivity].
  - intros w. unfold registerUser, require, bind.
    destruct (0 <? N.of_nat (String.length discordId)) eqn:Hlen.
    2: { destruct discordId; [contradiction|discriminate]. }
    destruct (N.eqb_spec w 0) as [->|Hw]; simpl.
    + eexists. split; [reflexivity|]. intros C. contradiction.
    + rewrite Ha'. destruct (N.eqb_spec a 0); [contradiction|]. simpl.
      eexists. split; [reflexivity|]. reflexivity.
Qed.

Lemma orphaned_registration_stays_witness :
  let txs := [mkTx 1 (CallRegisterUser "alice" 11)] in
  let later := [mkTx 2 (CallRegisterUser "alice" 12);
                mkTx 3 (CallRegisterUser "bob" 12)] in
  let keys : address -> option string :=
    <[12 := Some "0xfresh"]> (fun _ => None) in
  isOrphanedRegistration (run later (run txs init)) keys "alice"
  = OrphanCheck.Build true (Some 11)
  /\ getWalletForDiscordId (run later (run txs init)) keys "alice" = None.
Proof.
  intros txs later keys.
  destruct (orphaned_registration_stays txs later (fun _ => None) keys
              "alice" 11 eq_refl eq_refl) as (H1 & H2 & _).
  split; [exact H1|exact H2].
Defined.
